(** * The mx assembler (cpu/src/assembler.ts): embedding and properties

    The TypeScript source is embedded shallowly.  A JavaScript string is
    the list of its UTF-16 code units; the regular expressions of the
    source are kept as data and run by a backtracking matcher that follows
    the priority order of the ECMAScript matcher; the library methods the
    source calls ([split], [match], [replace], [trim]) are modelled next
    to it.  A call that would throw in JavaScript returns [Throw]. *)

From stdpp Require Import gmap list strings.
From Stdlib Require Import NArith Lia.

Local Open Scope N_scope.
Local Open Scope list_scope.

(** ** Strings and characters *)

(** A UTF-16 code unit. *)
Abbreviation char := N (only parsing).
Abbreviation jsstring := (list N) (only parsing).

(** The code units of a literal of the source (all of them are ASCII). *)
Fixpoint str (s : string) : jsstring :=
  match s with
  | EmptyString => []
  | String a t => Ascii.N_of_ascii a :: str t
  end.

Definition LF : char := 10.
Definition SPACE : char := 32.
Definition HASH : char := 35.
Definition HYPHEN : char := 45.
Definition ZERO : char := 48.
Definition COLON : char := 58.

(** Lines of a literal document, joined by ["\n"]. *)
Fixpoint unlines (ls : list string) : jsstring :=
  match ls with
  | [] => []
  | [l] => str l
  | l :: ls' => str l ++ LF :: unlines ls'
  end.

Definition in_range (lo hi c : char) : bool := (lo <=? c) && (c <=? hi).

(** ECMAScript LineTerminator: LF, CR, LS, PS. *)
Definition is_line_terminator (c : char) : bool :=
  (c =? 10) || (c =? 13) || (c =? 0x2028) || (c =? 0x2029).

(** ECMAScript WhiteSpace: TAB, VT, FF, SP, NBSP, ZWNBSP and category Zs. *)
Definition is_white_space (c : char) : bool :=
  (c =? 9) || (c =? 11) || (c =? 12) || (c =? 32) || (c =? 160)
  || (c =? 0xFEFF) || (c =? 0x1680) || in_range 0x2000 0x200A c
  || (c =? 0x202F) || (c =? 0x205F) || (c =? 0x3000).

(** The class [\s], also the set [trim] removes. *)
Definition cls_s (c : char) : bool := is_white_space c || is_line_terminator c.
(** [.] without the s flag. *)
Definition cls_dot (c : char) : bool := negb (is_line_terminator c).
(** [[A-Z_]] *)
Definition cls_name (c : char) : bool := in_range 65 90 c || (c =? 95).
(** [[a-z]] *)
Definition cls_lower (c : char) : bool := in_range 97 122 c.
(** [[0-9a-f]] *)
Definition cls_hex (c : char) : bool := in_range 48 57 c || in_range 97 102 c.
(** A literal character. *)
Definition cls_lit (a c : char) : bool := c =? a.

(** ** Regular expressions *)

Inductive regex : Type :=
| Eps : regex
| Class : (char -> bool) -> regex
| Seq : regex -> regex -> regex
| Alt : regex -> regex -> regex
| Star : regex -> regex            (* greedy [*] *)
| EndLine : regex                  (* [$] under the m flag *)
| EndInput : regex.                (* [$] without the m flag *)

Definition Lit (a : char) : regex := Class (cls_lit a).
Definition Opt (r : regex) : regex := Alt r Eps.            (* [r?] *)
Definition Plus (r : regex) : regex := Seq r (Star r).      (* [r+] *)
Definition UpTo2 (r : regex) : regex := Opt (Seq r (Opt r)). (* [r{0,2}] *)

Declare Scope regex_scope.
Delimit Scope regex_scope with re.
Bind Scope regex_scope with regex.
Infix "·" := Seq (at level 40, left associativity) : regex_scope.
Infix "∣" := Alt (at level 50, left associativity) : regex_scope.

(** Iterations of a greedy star.  [step] gives the ways one iteration can
    end; an iteration that consumes nothing is rejected, as the
    RepeatMatcher of the standard does, so [length s] iterations are
    always enough. *)
Fixpoint star_iter (step : jsstring -> list jsstring) (n : nat) (s : jsstring)
  : list jsstring :=
  match n with
  | O => [s]
  | S n' =>
      flat_map (fun s' => if (length s' <? length s)%nat
                          then star_iter step n' s' else [])
               (step s) ++ [s]
  end.

(** [rmatch r s]: the suffixes of [s] that remain after [r] has matched at
    the start of [s], in the order in which the backtracking matcher tries
    them.  The head, when there is one, is the match JavaScript reports. *)
Fixpoint rmatch (r : regex) (s : jsstring) : list jsstring :=
  match r with
  | Eps => [s]
  | Class p => match s with
               | c :: t => if p c then [t] else []
               | [] => []
               end
  | Seq a b => flat_map (rmatch b) (rmatch a s)
  | Alt a b => rmatch a s ++ rmatch b s
  | Star a => star_iter (rmatch a) (length s) s
  | EndLine => match s with
               | [] => [s]
               | c :: _ => if is_line_terminator c then [s] else []
               end
  | EndInput => match s with
                | [] => [s]
                | _ :: _ => []
                end
  end.

(** [matches r u rest]: [r] can match the text [u] when [rest] follows it. *)
Inductive matches : regex -> jsstring -> jsstring -> Prop :=
| m_eps rest : matches Eps [] rest
| m_class p c rest : p c = true -> matches (Class p) [c] rest
| m_seq a b u v rest :
    matches a u (v ++ rest) -> matches b v rest -> matches (Seq a b) (u ++ v) rest
| m_alt_l a b u rest : matches a u rest -> matches (Alt a b) u rest
| m_alt_r a b u rest : matches b u rest -> matches (Alt a b) u rest
| m_star_nil a rest : matches (Star a) [] rest
| m_star_cons a u v rest :
    u <> [] -> matches a u (v ++ rest) -> matches (Star a) v rest ->
    matches (Star a) (u ++ v) rest
| m_endline_eof : matches EndLine [] []
| m_endline_lt c rest :
    is_line_terminator c = true -> matches EndLine [] (c :: rest)
| m_endinput : matches EndInput [] [].

(** ** The String methods the source calls *)

(** [s.match(/^r/)] for a pattern without the g flag that starts with [^]:
    the only candidate position is 0.  [None] is JavaScript's [null]; the
    source only tests the result against [null]. *)
Definition js_match (r : regex) (s : jsstring) : option jsstring :=
  match rmatch r s with
  | [] => None
  | rest :: _ => Some (take (length s - length rest)%nat s)
  end.

(** [s.split(sep)] for a regular expression without capture groups.
    [cur] is the text since the end of the last separator, reversed;
    [skip] counts the characters of the current separator still to pass.
    An empty match never cuts at the position where the last piece began,
    and the scan moves one character on after it. *)
Fixpoint split_loop (sep : regex) (skip : nat) (cur rest : jsstring)
  : list jsstring :=
  match rest with
  | [] => [rev cur]
  | c :: t =>
      match skip with
      | S k => split_loop sep k cur t
      | O =>
          match rmatch sep rest with
          | [] => split_loop sep O (c :: cur) t
          | rest' :: _ =>
              match (length rest - length rest')%nat with
              | O => match cur with
                     | [] => split_loop sep O [c] t
                     | _ :: _ => rev cur :: split_loop sep O [c] t
                     end
              | S k => rev cur :: split_loop sep k [] t
              end
          end
      end
  end.

Definition js_split (sep : regex) (s : jsstring) : list jsstring :=
  match s with
  | [] => match rmatch sep [] with [] => [[]] | _ :: _ => [] end
  | _ :: _ => split_loop sep O [] s
  end.

(** [s.split(c)] for a separator string of one character. *)
Fixpoint split_on_loop (sep : char) (cur rest : jsstring) : list jsstring :=
  match rest with
  | [] => [rev cur]
  | c :: t => if c =? sep then rev cur :: split_on_loop sep [] t
              else split_on_loop sep (c :: cur) t
  end.

Definition js_split_on (sep : char) (s : jsstring) : list jsstring :=
  split_on_loop sep [] s.

(** [s.replace(r, repl)] for a pattern with the g flag and a replacement
    without [$] patterns.  After an empty match the character at that
    position is copied and the scan resumes behind it. *)
Fixpoint replace_loop (r : regex) (repl : jsstring) (skip : nat)
  (rest : jsstring) : jsstring :=
  match rest with
  | [] => match rmatch r [] with [] => [] | _ :: _ => repl end
  | c :: t =>
      match skip with
      | S k => replace_loop r repl k t
      | O =>
          match rmatch r rest with
          | [] => c :: replace_loop r repl O t
          | rest' :: _ =>
              match (length rest - length rest')%nat with
              | O => repl ++ c :: replace_loop r repl O t
              | S k => repl ++ replace_loop r repl k t
              end
          end
      end
  end.

Definition js_replace_all (r : regex) (repl s : jsstring) : jsstring :=
  replace_loop r repl O s.

(** [s.trim()] *)
Fixpoint trim_start (s : jsstring) : jsstring :=
  match s with
  | c :: t => if cls_s c then trim_start t else s
  | [] => []
  end.

Definition js_trim (s : jsstring) : jsstring :=
  rev (trim_start (rev (trim_start s))).

(** ** Results of calls that can throw *)

Inductive js_error : Type :=
| TypeError : js_error.   (* a property read on [undefined] *)

Inductive outcome (A : Type) : Type :=
| Ret : A -> outcome A
| Throw : js_error -> outcome A.
Arguments Ret {A} _.
Arguments Throw {A} _.

#[global] Instance outcome_ret : MRet outcome := fun A a => Ret a.
#[global] Instance outcome_bind : MBind outcome := fun A B f m =>
  match m with
  | Ret a => f a
  | Throw e => Throw e
  end.

(** [a && b], which evaluates [b] only when [a] is true. *)
Definition and_then (a : outcome bool) (b : outcome bool) : outcome bool :=
  x ← a; if (x : bool) then b else Ret false.
Infix "&&?" := and_then (at level 40, left associativity).

(** [o.m(...)] on an element read from an array: reading past the end gives
    [undefined], and a method call on [undefined] throws a TypeError. *)
Definition on_defined {A B : Type} (o : option A) (m : A -> B) : outcome B :=
  match o with
  | Some a => Ret (m a)
  | None => Throw TypeError
  end.

(** ** The program *)

Module Asm.

(** A JavaScript object used as a string-keyed map: the map holds the own
    properties of the object.  What a read finds up the prototype chain
    ([constructor], [toString] and the like on a plain object) is not part
    of it. *)
Abbreviation record := (gmap (list N) (list N)) (only parsing).

Record instruction : Type := {
  byte : jsstring;
  op1 : option jsstring;
  op2 : option jsstring;
  desc : jsstring
}.

(** The properties of the [instructionSet] literal, in source order. *)
Definition instructionSet_literal : list (jsstring * instruction) := [
  (str "setpc",
   {| byte := str "B1"; op1 := Some (str "byte #"); op2 := None;
      desc := str "Set PC to byte #" |});
  (str "jumpr",
   {| byte := str "B2"; op1 := Some (str "Memory slot [00-0F]");
      op2 := Some (str "byte #");
      desc := str "If accumulator equals register (op1), jump to byte (op2), otherwise, advance program counter 3 bytes (to next instruction)" |});
  (str "jumpv",
   {| byte := str "B3"; op1 := Some (str "Value"); op2 := Some (str "byte #");
      desc := str "If accumulator equals value (op1), jump to byte (op2), otherwise, advance program counter 3 bytes (to next instruction)" |});
  (str "accr",
   {| byte := str "C0"; op1 := Some (str "Memory slot [00-0F]"); op2 := None;
      desc := str "Add memory slot value to accumulator" |});
  (str "accv",
   {| byte := str "C1"; op1 := Some (str "Value to add to accumulator");
      op2 := None; desc := str "Add value to accumulator" |});
  (str "inc",
   {| byte := str "C2"; op1 := None; op2 := None;
      desc := str "Increment the counter" |});
  (str "dec",
   {| byte := str "C3"; op1 := None; op2 := None;
      desc := str "Decrement the counter" |});
  (str "res",
   {| byte := str "C4"; op1 := None; op2 := None;
      desc := str "Reset the counter to zero" |});
  (str "ctoa",
   {| byte := str "C5"; op1 := None; op2 := None;
      desc := str "Copy counter to accumulator" |});
  (str "atoc",
   {| byte := str "C6"; op1 := None; op2 := None;
      desc := str "Copy accumulator to counter" |});
  (str "rtoa",
   {| byte := str "D0"; op1 := Some (str "Memory slot [00-0F]"); op2 := None;
      desc := str "Copy memory slot value to accumulator" |});
  (str "vtoa",
   {| byte := str "D1"; op1 := Some (str "Value"); op2 := None;
      desc := str "Set accumulator to value" |});
  (str "ator",
   {| byte := str "D2"; op1 := Some (str "Memory slot [00-0F]"); op2 := None;
      desc := str "Store accumulator in memory slot" |});
  (str "halt",
   {| byte := str "00"; op1 := None; op2 := None;
      desc := str "Halt program execution" |})
].

Definition instructionSet : gmap (list N) instruction :=
  list_to_map instructionSet_literal.

(** [Object.keys(instructionSet)]: the own keys in insertion order. *)
Definition instructionSet_keys : list jsstring := map fst instructionSet_literal.

Definition instrumap : record :=
  fold_left
    (fun (acc : record) key =>
       match instructionSet !! key with
       | Some i => <[key := byte i]> acc
       | None => acc
       end)
    instructionSet_keys ∅.

(** The regular expressions of the source.  In these comments the tokens
    of a pattern are set apart by blanks and a literal space is written
    [SP].

    [doc.split]:  [SP* - - -+ SP*] *)
Definition section_re : regex :=
  (Star (Lit SPACE) · Lit HYPHEN · Lit HYPHEN · Plus (Lit HYPHEN)
   · Star (Lit SPACE))%re.

(** The comment tail:  [# .*] *)
Definition comment_body : regex := (Lit HASH · Star (Class cls_dot))%re.

(** SYMDEF lines:  [^ ( \s* [A-Z_]+ SP+ 0 [0-9a-f] \s* )? \s* ( # .* )? $] *)
Definition symdef_body : regex :=
  (Star (Class cls_s) · Plus (Class cls_name) · Plus (Lit SPACE) · Lit ZERO
   · Class cls_hex · Star (Class cls_s))%re.
Definition symdef_re : regex :=
  (Opt symdef_body · Star (Class cls_s) · Opt comment_body · EndInput)%re.

(** CODE lines:
    [^ ( \s* ( [A-Z_]+ : )? \s* [a-z]+ ( SP+ ( [A-Z_]+ | [0-9a-f]+ ) ){0,2} \s* )?
       \s* ( # .* )? $] *)
Definition code_body : regex :=
  (Star (Class cls_s) · Opt (Plus (Class cls_name) · Lit COLON)
   · Star (Class cls_s) · Plus (Class cls_lower)
   · UpTo2 (Plus (Lit SPACE) · (Plus (Class cls_name) ∣ Plus (Class cls_hex)))
   · Star (Class cls_s))%re.
Definition code_re : regex :=
  (Opt code_body · Star (Class cls_s) · Opt comment_body · EndInput)%re.

(** [stripComments]:  [# .* $] with the flags g and m *)
Definition comment_re : regex := (comment_body · EndLine)%re.

(** [b !== null] *)
Definition not_null {A : Type} (b : option A) : bool :=
  match b with Some _ => true | None => false end.

(** [lines.map(line => line.match(re)).reduce((a, b) => a && b !== null, true)] *)
Definition all_match (re : regex) (lines : list jsstring) : bool :=
  fold_left (fun (a : bool) b => a && not_null b) (map (js_match re) lines) true.

Definition isValid (doc : jsstring) : outcome bool :=
  let sections := js_split section_re doc in
  Ret (length sections =? 3)%nat
  &&? on_defined (sections !! 1%nat)
        (fun s => all_match symdef_re (js_split_on LF s))
  &&? on_defined (sections !! 2%nat)
        (fun s => all_match code_re (js_split_on LF s)).

Definition stripComments (doc : jsstring) : jsstring :=
  js_replace_all comment_re [] doc.

Definition stripLabels (code : jsstring) : jsstring := code.

Record sections : Type := {
  sec_desc : jsstring;
  sec_syms : jsstring;
  sec_code : jsstring
}.

Definition splitSections (doc : jsstring) : outcome sections :=
  let sections := js_split section_re doc in
  d ← on_defined (sections !! 0%nat) js_trim;
  s ← on_defined (sections !! 1%nat) js_trim;
  c ← on_defined (sections !! 2%nat) js_trim;
  Ret {| sec_desc := d; sec_syms := s; sec_code := c |}.

Definition buildSymMap (syms : jsstring) : record := ∅.

Definition buildLabelMap (code : jsstring) : record := ∅.

Definition substitute (code : jsstring) (map : record) : jsstring := code.

Definition not_executable : jsstring := str "I'm not executable".

(** [assemble], with the module-level [instrumap] it reads made explicit. *)
Definition assemble_with (instrumap : record) (doc : jsstring)
  : outcome jsstring :=
  valid ← isValid doc;
  if (valid : bool) then
    let work := doc in
    let work := stripComments work in
    sections ← splitSections work;
    let symmap := buildSymMap (sec_syms sections) in
    let labelmap := buildLabelMap (sec_code sections) in
    let work := sec_code sections in
    let work := substitute work symmap in
    let work := substitute work labelmap in
    let work := substitute work instrumap in
    let work := stripLabels work in
    Ret work
  else Ret not_executable.

Definition assemble (doc : jsstring) : outcome jsstring :=
  assemble_with instrumap doc.

End Asm.

Import Asm.

(** ** Notions the statements use *)

(** What is left of a line after the comment that starts it. *)
Fixpoint rest_of_line (s : jsstring) : jsstring :=
  match s with
  | c :: t => if cls_dot c then rest_of_line t else s
  | [] => []
  end.

(** What [isValid] checks: the split gives three sections, and every line of
    the second and of the third matches its pattern. *)
Definition well_formed (doc : jsstring) : Prop :=
  exists s0 s1 s2,
    js_split section_re doc = [s0; s1; s2]
    /\ Forall (fun l => js_match symdef_re l <> None) (js_split_on LF s1)
    /\ Forall (fun l => js_match code_re l <> None) (js_split_on LF s2).

(** The value of a digit of [[0-9a-f]] and of a byte written with two. *)
Definition hex_digit (c : char) : N :=
  if in_range 48 57 c then c - 48 else c - 87.

Definition byte_value (h1 h2 : char) : N := 16 * hex_digit h1 + hex_digit h2.

(** The result [assemble] is documented to give: upper-case two-digit
    bytes, single spaces between them, one line. *)
Definition cls_HEX (c : char) : bool := in_range 48 57 c || in_range 65 70 c.

Definition byte_text_re : regex :=
  (Opt (Class cls_HEX · Class cls_HEX
        · Star (Lit SPACE · Class cls_HEX · Class cls_HEX)) · EndInput)%re.

Definition is_byte_text (s : jsstring) : bool := not_null (js_match byte_text_re s).

(** The operands an instruction of the catalog declares. *)
Definition operandCount (i : instruction) : nat :=
  (match op1 i with Some _ => 1 | None => 0 end)
  + (match op2 i with Some _ => 1 | None => 0 end).

(** The bytes a code line with this mnemonic should take: the opcode and one
    byte for each operand. *)
Definition width (mnemonic : jsstring) : option nat :=
  i ← instructionSet !! mnemonic; Some (1 + operandCount i)%nat.

(** [re.test(s)] for a pattern without flags: a match at any position. *)
Fixpoint js_test (r : regex) (s : jsstring) : bool :=
  match rmatch r s with
  | _ :: _ => true
  | [] => match s with
          | [] => false
          | _ :: t => js_test r t
          end
  end.

(** A label-prefix marker:  [[A-Z_]+ :] *)
Definition label_marker_re : regex := (Plus (Class cls_name) · Lit COLON)%re.

(** The separator lines of the documentation of [isValid]:
    [^ \s* - - -+ \s* $] *)
Definition separator_line_re : regex :=
  (Star (Class cls_s) · Lit HYPHEN · Lit HYPHEN · Plus (Lit HYPHEN)
   · Star (Class cls_s) · EndInput)%re.

Definition separator_lines (doc : jsstring) : list jsstring :=
  List.filter (fun l => not_null (js_match separator_line_re l))
              (js_split_on LF doc).


(** A text that does not begin with a character [trim] removes. *)
Definition starts_clean (s : jsstring) : Prop :=
  match s with
  | c :: _ => cls_s c = false
  | [] => True
  end.

(** An operand token of a CODE line: a name or a run of hex digits. *)
Definition is_operand (w : jsstring) : Prop :=
  w <> [] /\ (Forall (fun c => cls_name c = true) w
              \/ Forall (fun c => cls_hex c = true) w).

(** [t] occurs in [s]. *)
Definition occurs_in (t s : jsstring) : Prop :=
  exists pre post, s = pre ++ t ++ post.

(** What may follow the body of a SYMDEF or CODE line: nothing, or a
    comment up to the end of the line. *)
Definition comment_tail (tail : jsstring) : Prop :=
  tail = [] \/ exists c, tail = HASH :: c /\ Forall (fun x => cls_dot x = true) c.

(** A CODE line written plainly: an optional label, a mnemonic, and the
    operands, each after one space. *)
Definition code_line (label : option jsstring) (mnemonic : jsstring)
  (operands : list jsstring) : jsstring :=
  match label with
  | Some l => l ++ [COLON; SPACE]
  | None => []
  end ++ mnemonic ++ concat (map (cons SPACE) operands).

(** A text without a run of three hyphens. *)
Definition quiet (s : jsstring) : Prop := ~ occurs_in (str "---") s.

(** A document in the layout of the exercises: the description, a line
    [---], the symbol definitions, a line [---], the code. *)
Definition document (desc syms code : jsstring) : jsstring :=
  desc ++ LF :: str "---" ++ LF :: syms ++ LF :: str "---" ++ LF :: code.

(** Whether a text has a run of three hyphens. *)
Fixpoint three_hyphens (s : jsstring) : bool :=
  match s with
  | a :: t =>
      match t with
      | b :: c :: _ => (a =? HYPHEN) && (b =? HYPHEN) && (c =? HYPHEN)
      | _ => false
      end || three_hyphens t
  | [] => false
  end.

(** A run of characters of the class [p] cannot go on into [s]: [s] is
    empty or begins with a character outside the class. *)
Definition stops_at (p : char -> bool) (s : jsstring) : Prop :=
  match s with
  | c :: _ => p c = false
  | [] => True
  end.

(** ** The command-line entry point *)

Definition DOT : char := 46.

(** The pattern of [main], tokens set apart as above:  [.* \. m x].
    In the call of [replace] the same pattern has a group around [.*], so
    group 1 is the match without its last three characters. *)
Definition mx_re : regex :=
  (Star (Class cls_dot) · Lit DOT · Lit 109 · Lit 120)%re.

(** [s.replace(r, ...)] for a pattern without the g flag: the leftmost match
    is replaced, by [f] of the matched text, and the rest is kept. *)
Fixpoint replace_first_loop (r : regex) (f : jsstring -> jsstring)
  (rest : jsstring) : option jsstring :=
  match rmatch r rest with
  | rest' :: _ => Some (f (take (length rest - length rest')%nat rest) ++ rest')
  | [] => match rest with
          | [] => None
          | c :: t => cons c <$> replace_first_loop r f t
          end
  end.

Definition js_replace_first (r : regex) (f : jsstring -> jsstring)
  (s : jsstring) : jsstring :=
  default s (replace_first_loop r f s).

(** The replacement ['$1.o'] for a match of the pattern of [main]. *)
Definition group1_dot_o (matched : jsstring) : jsstring :=
  take (length matched - 3)%nat matched ++ str ".o".

(** What [main] acts on: the files, as the text [readFileSync] decodes and
    [writeFileSync] encodes (the UTF-8 coding itself is not modelled, and a
    write is taken to succeed), and the lines written by [console.error]. *)
Record world : Type := {
  files : gmap (list N) (list N);
  stderr : list jsstring
}.

(** How a call of [main] ends. *)
Inductive ending : Type :=
| Returned : N -> ending                (* the exit code *)
| Uncaught : js_error -> ending         (* thrown by [assemble] *)
| NoSuchFile : jsstring -> ending.      (* thrown by [readFileSync] *)

Definition console_error (msg : jsstring) (w : world) : world :=
  {| files := files w; stderr := stderr w ++ [msg] |}.

Definition main (argv : list jsstring) (w : world) : ending * world :=
  if negb (length argv =? 3)%nat then
    (Returned 1, console_error (str "Usage: ts-node assembler.ts file.mx") w)
  else
    match argv !! 2%nat with
    | None => (Uncaught TypeError, w)
    | Some path =>
        if negb (js_test mx_re path) then
          (Returned 1,
           console_error
             (str "Input file must have extension '.mx', give " ++ path) w)
        else
          match files w !! path with
          | None => (NoSuchFile path, w)
          | Some code =>
              match assemble code with
              | Throw e => (Uncaught e, w)
              | Ret exe =>
                  (Returned 0,
                   {| files := <[js_replace_first mx_re group1_dot_o path := exe]>
                                 (files w);
                      stderr := stderr w |})
              end
          end
    end.

(** * Properties of the matcher *)

Section MatcherSound.

Lemma star_iter_sound (a : regex) (step : jsstring -> list jsstring) :
  (forall s s', In s' (step s) -> exists u, s = u ++ s' /\ matches a u s') ->
  forall n s s', In s' (star_iter step n s) ->
                 exists u, s = u ++ s' /\ matches (Star a) u s'.
Proof.
  intros Hstep n; induction n as [|n IH]; intros s s' Hin.
  - destruct Hin as [<-|[]]. exists []; split; [reflexivity | constructor].
  - change (star_iter step (S n) s)
      with (flat_map (fun s1 => if (length s1 <? length s)%nat
                                then star_iter step n s1 else [])
                     (step s) ++ [s]) in Hin.
    apply in_app_iff in Hin as [Hin|[<-|[]]].
    2: { exists []; split; [reflexivity | constructor]. }
    apply in_flat_map in Hin as (s1 & Hs1 & Hin).
    revert Hin. destruct (Nat.ltb_spec (length s1) (length s)) as [Hlt|_];
      intros Hin; [|inversion Hin].
    apply Hstep in Hs1 as (u & -> & Hu).
    apply IH in Hin as (v & -> & Hv).
    exists (u ++ v); split; [now rewrite app_assoc|].
    constructor; try assumption.
    intros ->; cbn in Hlt; lia.
Qed.

Lemma rmatch_sound r : forall s s',
  In s' (rmatch r s) -> exists u, s = u ++ s' /\ matches r u s'.
Proof.
  induction r as [|p|a IHa b IHb|a IHa b IHb|a IHa| |]; intros s s' Hin; cbn in Hin.
  - destruct Hin as [<-|[]]. exists []; split; [reflexivity | constructor].
  - destruct s as [|c t]; [inversion Hin|].
    revert Hin. destruct (p c) eqn:Hp; intros Hin; [|inversion Hin].
    destruct Hin as [<-|[]]. exists [c]; split; [reflexivity | now constructor].
  - apply in_flat_map in Hin as (s1 & Hs1 & Hin).
    apply IHa in Hs1 as (u & -> & Hu).
    apply IHb in Hin as (v & -> & Hv).
    exists (u ++ v); split; [now rewrite app_assoc | now constructor].
  - apply in_app_iff in Hin as [Hin|Hin].
    + apply IHa in Hin as (u & -> & Hu). exists u; split; [reflexivity | now apply m_alt_l].
    + apply IHb in Hin as (u & -> & Hu). exists u; split; [reflexivity | now apply m_alt_r].
  - now apply (star_iter_sound a (rmatch a) IHa) in Hin.
  - destruct s as [|c t].
    + destruct Hin as [<-|[]]. exists []; split; [reflexivity | constructor].
    + revert Hin. destruct (is_line_terminator c) eqn:Hc; intros Hin; [|inversion Hin].
      destruct Hin as [<-|[]]. exists []; split; [reflexivity | now constructor].
  - destruct s as [|c t]; [|inversion Hin].
    destruct Hin as [<-|[]]. exists []; split; [reflexivity | constructor].
Qed.

(** A successful [match] against a pattern that ends in [$] covers the
    whole string. *)
Lemma js_match_sound r s :
  js_match (Seq r EndInput) s <> None -> matches r s [].
Proof.
  unfold js_match. destruct (rmatch (Seq r EndInput) s) as [|rest l] eqn:E; [easy|].
  intros _. assert (Hin : In rest (rmatch (Seq r EndInput) s)) by (rewrite E; now left).
  apply rmatch_sound in Hin as (u & -> & Hu).
  inversion Hu as [| |a b u1 v rest' Ha Hb| | | | | | |]; subst.
  inversion Hb; subst. cbn in Ha. now rewrite !app_nil_r.
Qed.

End MatcherSound.

(** Inversion of the shapes the patterns of the source are built from. *)
Section Shapes.

Lemma matches_seq a b w rest :
  matches (Seq a b) w rest ->
  exists u v, w = u ++ v /\ matches a u (v ++ rest) /\ matches b v rest.
Proof. inversion 1; subst; eauto. Qed.

Lemma matches_opt a w rest :
  matches (Opt a) w rest -> w = [] \/ matches a w rest.
Proof.
  inversion 1 as [| | |? ? ? ? Ha|? ? ? ? He| | | | |]; subst; [now right|].
  inversion He; now left.
Qed.

Lemma matches_class p w rest :
  matches (Class p) w rest -> exists c, w = [c] /\ p c = true.
Proof. inversion 1; subst; eauto. Qed.

Lemma matches_star_class p w rest :
  matches (Star (Class p)) w rest -> Forall (fun c => p c = true) w.
Proof.
  remember (Star (Class p)) as r eqn:Er. induction 1; try discriminate.
  - constructor.
  - injection Er as ->.
    match goal with H : matches (Class _) _ _ |- _ =>
      apply matches_class in H as (c & -> & Hc) end.
    cbn. constructor; auto.
Qed.

End Shapes.

(** * The comment stripper *)

Section CommentStripper.

Lemma rest_of_line_suffix s : exists u, s = u ++ rest_of_line s.
Proof.
  induction s as [|c t [u IH]]; [now exists []|]. cbn.
  destruct (cls_dot c); [|now exists []].
  exists (c :: u). cbn. now rewrite <- IH.
Qed.

Lemma rest_of_line_length s : (length (rest_of_line s) <= length s)%nat.
Proof.
  destruct (rest_of_line_suffix s) as [u E].
  rewrite E at 2. rewrite length_app. lia.
Qed.

Lemma rest_of_line_drop s :
  drop (length s - length (rest_of_line s)) s = rest_of_line s.
Proof.
  destruct (rest_of_line_suffix s) as [u E].
  assert (length s - length (rest_of_line s) = length u)%nat as ->
    by (rewrite E at 1; rewrite length_app; lia).
  rewrite E at 1. apply drop_app_length.
Qed.

Lemma rest_of_line_end s : rmatch EndLine (rest_of_line s) = [rest_of_line s].
Proof.
  induction s as [|c t IH]; [reflexivity|]. cbn [rest_of_line].
  destruct (cls_dot c) eqn:Hc; [exact IH|].
  cbn. unfold cls_dot in Hc. now destruct (is_line_terminator c).
Qed.

(** A greedy [.*] first tries to run to the end of the line. *)
Lemma star_dot_first n : forall s, (length s <= n)%nat ->
  exists l, star_iter (rmatch (Class cls_dot)) n s = rest_of_line s :: l.
Proof.
  induction n as [|n IH]; intros s Hn.
  - destruct s; [|cbn in Hn; lia]. now exists [].
  - destruct s as [|c t]; [now exists []|].
    change (star_iter (rmatch (Class cls_dot)) (S n) (c :: t))
      with (flat_map (fun s1 => if (length s1 <? length (c :: t))%nat
                                then star_iter (rmatch (Class cls_dot)) n s1
                                else [])
                     (if cls_dot c then [t] else []) ++ [c :: t]).
    cbn [rest_of_line]. destruct (cls_dot c); [|now exists []].
    cbn [flat_map].
    destruct (Nat.ltb_spec (length t) (length (c :: t))) as [_|Hge];
      [|cbn in Hge; lia].
    destruct (IH t) as [l ->]; [cbn in Hn; lia|].
    eexists. cbn. reflexivity.
Qed.

Lemma comment_re_hash t :
  exists l, rmatch comment_re (HASH :: t) = rest_of_line t :: l.
Proof.
  unfold comment_re, comment_body.
  change (rmatch (Lit HASH · Star (Class cls_dot) · EndLine) (HASH :: t))
    with (flat_map (rmatch EndLine)
            (star_iter (rmatch (Class cls_dot)) (length t) t ++ [])).
  destruct (star_dot_first (length t) t) as [l ->]; [lia|].
  cbn [app flat_map]. rewrite rest_of_line_end. eexists. reflexivity.
Qed.

Lemma comment_re_other c t : c <> HASH -> rmatch comment_re (c :: t) = [].
Proof.
  intros Hc. unfold comment_re, comment_body. cbn [rmatch Lit].
  unfold cls_lit. destruct (N.eqb_spec c HASH); [contradiction|]. reflexivity.
Qed.

Lemma replace_loop_skip r repl k : forall s,
  replace_loop r repl k s = replace_loop r repl 0 (drop k s).
Proof.
  induction k as [|k IH]; intros s; [now rewrite drop_0|].
  destruct s as [|c t]; [reflexivity|]. cbn [replace_loop drop]. apply IH.
Qed.

(** The equations of [stripComments]. *)
Lemma stripComments_nil : stripComments [] = [].
Proof. reflexivity. Qed.

Lemma stripComments_hash t :
  stripComments (HASH :: t) = stripComments (rest_of_line t).
Proof.
  unfold stripComments, js_replace_all. cbn [replace_loop].
  destruct (comment_re_hash t) as [l ->].
  pose proof (rest_of_line_length t) as Hlen.
  replace (length (HASH :: t) - length (rest_of_line t))%nat
    with (S (length t - length (rest_of_line t))) by (cbn; lia).
  cbn [app]. rewrite replace_loop_skip. now rewrite rest_of_line_drop.
Qed.

Lemma stripComments_other c t :
  c <> HASH -> stripComments (c :: t) = c :: stripComments t.
Proof.
  intros Hc. unfold stripComments, js_replace_all. cbn [replace_loop].
  now rewrite comment_re_other.
Qed.

(** No [#] survives. *)
Lemma stripComments_no_hash_bounded n : forall s,
  (length s <= n)%nat -> ~ In HASH (stripComments s).
Proof.
  induction n as [|n IH]; intros s Hn.
  - destruct s; [|cbn in Hn; lia]. now rewrite stripComments_nil.
  - destruct s as [|c t]; [now rewrite stripComments_nil|].
    destruct (N.eq_dec c HASH) as [->|Hc].
    + rewrite stripComments_hash. apply IH.
      pose proof (rest_of_line_length t). cbn in Hn. lia.
    + rewrite stripComments_other by assumption.
      intros [E|Hin]; [congruence|]. revert Hin. apply IH. cbn in Hn. lia.
Qed.

Lemma stripComments_no_hash s : ~ In HASH (stripComments s).
Proof. now apply (stripComments_no_hash_bounded (length s)). Qed.

(** A text without [#] is left as it is. *)
Lemma stripComments_id s : ~ In HASH s -> stripComments s = s.
Proof.
  induction s as [|c t IH]; intros Hs; [reflexivity|].
  rewrite stripComments_other by (intros ->; apply Hs; now left).
  f_equal. apply IH. intros Hin. apply Hs. now right.
Qed.

End CommentStripper.

(** C8.  The comment stripper is idempotent: applying [stripComments] to its
    own result changes nothing, for every document. *)
Theorem stripComments_idempotent (doc : jsstring) :
  stripComments (stripComments doc) = stripComments doc.
Proof. apply stripComments_id, stripComments_no_hash. Qed.

(** * The validator *)

Section Validator.

Lemma reduce_and {A : Type} (ms : list (option A)) : forall acc,
  fold_left (fun (a : bool) b => a && not_null b) ms acc
  = acc && forallb not_null ms.
Proof.
  induction ms as [|m ms IH]; intros acc; cbn.
  - now rewrite andb_true_r.
  - rewrite IH. now rewrite andb_assoc.
Qed.

Lemma all_match_Forall re ls :
  all_match re ls = true <-> Forall (fun l => js_match re l <> None) ls.
Proof.
  unfold all_match. rewrite reduce_and. cbn [andb].
  induction ls as [|l ls IH]; cbn.
  - split; [constructor | reflexivity].
  - rewrite andb_true_iff, IH. split.
    + intros [Hl Hls]. constructor; [|assumption].
      now destruct (js_match re l).
    + inversion 1 as [|? ? Hl Hls]; subst. split; [|assumption].
      now destruct (js_match re l).
Qed.

Lemma isValid_three doc s0 s1 s2 :
  js_split section_re doc = [s0; s1; s2] ->
  isValid doc = Ret (all_match symdef_re (js_split_on LF s1)
                     && all_match code_re (js_split_on LF s2)).
Proof.
  intros E. unfold isValid. rewrite E. cbn.
  now destruct (all_match symdef_re (js_split_on LF s1)).
Qed.

Lemma isValid_not_three doc :
  length (js_split section_re doc) <> 3%nat -> isValid doc = Ret false.
Proof.
  intros Hn. unfold isValid.
  destruct (Nat.eqb_spec (length (js_split section_re doc)) 3%nat); [contradiction|].
  reflexivity.
Qed.

Lemma three_sections {A : Type} (l : list A) :
  length l = 3%nat -> exists a b c, l = [a; b; c].
Proof. destruct l as [|a [|b [|c [|d l]]]]; try discriminate; eauto. Qed.

(** [isValid] never throws: the lazy [&&] guards both index reads. *)
Lemma isValid_total doc : exists b, isValid doc = Ret b.
Proof.
  destruct (Nat.eq_dec (length (js_split section_re doc)) 3%nat) as [E|E].
  - apply three_sections in E as (s0 & s1 & s2 & E).
    rewrite (isValid_three _ _ _ _ E). eauto.
  - rewrite isValid_not_three by assumption. eauto.
Qed.

Lemma isValid_true_iff doc : isValid doc = Ret true <-> well_formed doc.
Proof.
  split.
  - intros Hv.
    destruct (Nat.eq_dec (length (js_split section_re doc)) 3%nat) as [E|E].
    + apply three_sections in E as (s0 & s1 & s2 & E).
      rewrite (isValid_three _ _ _ _ E) in Hv. injection Hv as Hv.
      apply andb_true_iff in Hv as [H1 H2].
      exists s0, s1, s2. now rewrite <- !all_match_Forall.
    + rewrite isValid_not_three in Hv by assumption. discriminate.
  - intros (s0 & s1 & s2 & E & H1 & H2).
    rewrite (isValid_three _ _ _ _ E).
    apply all_match_Forall in H1, H2. now rewrite H1, H2.
Qed.

Lemma assemble_invalid m doc :
  isValid doc = Ret false -> assemble_with m doc = Ret not_executable.
Proof. intros Hv. unfold assemble_with. now rewrite Hv. Qed.

(** On a document the validator accepts, the result is the third section
    of the stripped text, trimmed and otherwise untouched. *)
Lemma assemble_valid m doc :
  isValid doc = Ret true ->
  assemble_with m doc
  = (s ← splitSections (stripComments doc); Ret (sec_code s)).
Proof. intros Hv. unfold assemble_with. now rewrite Hv. Qed.

End Validator.

(** C5 (as amended).  For every raw document the validator returns a bare
    boolean and nothing else: [true] exactly when the split gives three
    sections and every line of sections 2 and 3 matches its pattern, [false]
    otherwise, with no line number and no section. *)
Theorem isValid_bare_boolean (doc : jsstring) :
  (isValid doc = Ret true /\ well_formed doc)
  \/ (isValid doc = Ret false /\ ~ well_formed doc).
Proof.
  destruct (isValid_total doc) as [[|] Hv].
  - left. split; [assumption|]. now apply isValid_true_iff.
  - right. split; [assumption|]. intros Hw.
    apply isValid_true_iff in Hw. congruence.
Qed.

(** C5, counterexample.  A document whose first offending line is line 3, in
    section 2, and one whose first offending line is line 7, in section 3,
    get the same answer from the validator: the bare boolean [false]. *)
Lemma isValid_reports_no_position :
  isValid (unlines ["d"; "---"; "bad line"; "---"; "halt"]) = Ret false
  /\ isValid (unlines ["d"; "---"; "N 0f"; "---"; "halt"; ""; "BAD"]) = Ret false.
Proof. split; vm_compute; reflexivity. Qed.

(** C2 (as amended).  For every document the validator rejects, [assemble]
    returns the fixed text [I'm not executable], whatever the cause. *)
Theorem assemble_failure_is_placeholder (doc : jsstring) :
  isValid doc = Ret false -> assemble doc = Ret not_executable.
Proof. apply assemble_invalid. Qed.

Lemma assemble_failure_is_placeholder_witness :
  isValid (str "no separators here") = Ret false
  /\ assemble (str "no separators here") = Ret (str "I'm not executable").
Proof.
  split; [vm_compute; reflexivity|].
  apply (assemble_failure_is_placeholder (str "no separators here")).
  vm_compute; reflexivity.
Defined.

(** C2, counterexample.  Assembly of the empty document fails, and what
    [assemble] returns is the free-text placeholder, an ordinary string. *)
Lemma assemble_returns_free_text_on_failure :
  isValid [] = Ret false /\ assemble [] = Ret (str "I'm not executable").
Proof. split; vm_compute; reflexivity. Qed.

(** * Symbol definitions with a slot out of range *)

Section SlotRange.

Lemma cls_lit_eq a c : cls_lit a c = true -> c = a.
Proof. unfold cls_lit. apply N.eqb_eq. Qed.

Lemma cls_hex_bounds c :
  cls_hex c = true -> (48 <= c <= 57) \/ (97 <= c <= 102).
Proof.
  unfold cls_hex, in_range.
  rewrite orb_true_iff, !andb_true_iff, !N.leb_le. tauto.
Qed.

Lemma cls_name_bounds c : cls_name c = true -> (65 <= c <= 90) \/ c = 95.
Proof.
  unfold cls_name, in_range.
  rewrite orb_true_iff, andb_true_iff, !N.leb_le, N.eqb_eq. tauto.
Qed.

Lemma hex_digit_small c : cls_hex c = true -> hex_digit c <= 15.
Proof.
  intros Hc. apply cls_hex_bounds in Hc. unfold hex_digit, in_range.
  destruct (N.leb_spec 48 c), (N.leb_spec c 57); cbn [andb]; lia.
Qed.

Lemma cls_hex_not_space c : cls_hex c = true -> cls_s c = false.
Proof.
  intros Hc. apply cls_hex_bounds in Hc.
  unfold cls_s, is_white_space, is_line_terminator, in_range.
  repeat match goal with
         | |- context [N.eqb c ?k] =>
             destruct (N.eqb_spec c k); [lia|]
         end.
  destruct (N.leb_spec 0x2000 c); [lia|]. reflexivity.
Qed.

(** A byte above [0f] does not begin with the digit [0]. *)
Lemma high_byte_first_digit h1 h2 :
  cls_hex h2 = true -> 15 < byte_value h1 h2 -> h1 <> ZERO.
Proof.
  intros H2 Hv ->. apply hex_digit_small in H2.
  unfold byte_value in Hv. change (hex_digit ZERO) with 0 in Hv. lia.
Qed.

Variables (name : jsstring) (h1 h2 : char).
Hypothesis name_ok : Forall (fun c => cls_name c = true) name.
Hypothesis h1_hex : cls_hex h1 = true.
Hypothesis h2_hex : cls_hex h2 = true.
Hypothesis high : 15 < byte_value h1 h2.

Lemma line_no_hash : ~ In HASH (name ++ [SPACE; h1; h2]).
Proof.
  rewrite in_app_iff. intros [Hin|Hin].
  - rewrite List.Forall_forall in name_ok. apply name_ok in Hin.
    apply cls_name_bounds in Hin. unfold HASH in Hin. lia.
  - pose proof (cls_hex_bounds _ h1_hex). pose proof (cls_hex_bounds _ h2_hex).
    unfold HASH, SPACE in Hin. cbn in Hin. lia.
Qed.

(** The SYMDEF pattern has no match on such a line. *)
Lemma symdef_re_rejects_high_byte :
  js_match symdef_re (name ++ [SPACE; h1; h2]) = None.
Proof.
  destruct (js_match symdef_re (name ++ [SPACE; h1; h2])) eqn:E;
    [exfalso|reflexivity].
  assert (Hm : js_match symdef_re (name ++ [SPACE; h1; h2]) <> None)
    by congruence.
  clear E.
  apply js_match_sound in Hm.
  apply matches_seq in Hm as (u12 & u3 & E & Hm & H3).
  apply matches_seq in Hm as (u1 & u2 & -> & H1 & H2).
  rewrite app_nil_r in *.
  apply matches_star_class in H2.
  apply matches_opt in H3 as [->|H3].
  2: { apply matches_seq in H3 as (c & v & -> & Hc & _).
       apply matches_class in Hc as (c' & -> & Hc).
       apply cls_lit_eq in Hc as ->.
       apply line_no_hash. rewrite E. apply in_or_app. right. now left. }
  rewrite app_nil_r in E.
  pose proof (cls_hex_not_space _ h2_hex) as Hsp.
  pose proof (high_byte_first_digit _ _ h2_hex high) as Hz.
  apply (f_equal (@rev N)) in E.
  rewrite !rev_app_distr in E. cbn [rev app] in E.
  apply List.Forall_rev in H2.
  apply matches_opt in H1 as [->|H1].
  - cbn [rev app] in E. rewrite app_nil_r in E. rewrite <- E in H2.
    inversion H2; congruence.
  - unfold symdef_body in H1.
    apply matches_seq in H1 as (ua & w2 & -> & H1 & Hw2).
    apply matches_seq in H1 as (ub & x & -> & H1 & Hx).
    apply matches_seq in H1 as (uc & z & -> & _ & Hzero).
    apply matches_class in Hx as (x' & -> & _).
    apply matches_class in Hzero as (z' & -> & Hzero).
    apply cls_lit_eq in Hzero as ->.
    apply matches_star_class, List.Forall_rev in Hw2.
    rewrite !rev_app_distr in E. cbn [rev app] in E.
    destruct (rev u2) as [|a r2].
    + destruct (rev w2) as [|b r1].
      * cbn [app] in E. congruence.
      * cbn [app] in E. inversion Hw2; congruence.
    + cbn [app] in E. inversion H2; congruence.
Qed.

End SlotRange.

(** Lines of the symbol definitions as they may be written: blanks before
    the name, several spaces before the byte, blanks and a comment after it. *)
Section SlotRangeLines.

Lemma run_unique p a b x y :
  Forall (fun c => p c = true) a -> Forall (fun c => p c = true) b ->
  stops_at p x -> stops_at p y ->
  a ++ x = b ++ y -> a = b /\ x = y.
Proof.
  revert b. induction a as [|c a IH]; intros b Ha Hb Hx Hy E.
  - destruct b as [|d b]; [now split|].
    inversion Hb; subst. cbn in E. subst x. cbn in *. congruence.
  - inversion Ha; subst. destruct b as [|d b].
    + cbn in E. subst y. cbn in *. congruence.
    + inversion Hb; subst. cbn in E. injection E as -> E.
      destruct (IH b) as [-> ->]; auto.
Qed.

Lemma cls_name_not_space c : cls_name c = true -> cls_s c = false.
Proof.
  intros Hc. apply cls_name_bounds in Hc.
  unfold cls_s, is_white_space, is_line_terminator, in_range.
  repeat match goal with
         | |- context [N.eqb c ?k] => destruct (N.eqb_spec c k); [lia|]
         end.
  destruct (N.leb_spec 0x2000 c); [lia|]. reflexivity.
Qed.

Lemma cls_hex_not_name c : cls_hex c = true -> cls_name c = false.
Proof.
  intros Hc. apply cls_hex_bounds in Hc. unfold cls_name, in_range.
  destruct (N.eqb_spec c 95); [lia|].
  destruct (N.leb_spec 65 c), (N.leb_spec c 90); cbn; lia || reflexivity.
Qed.

Lemma cls_hex_not_lit c a : cls_hex a = false -> cls_hex c = true -> cls_lit a c = false.
Proof. intros Ha Hc. unfold cls_lit. destruct (N.eqb_spec c a); congruence. Qed.

Lemma matches_plus_class p w rest :
  matches (Plus (Class p)) w rest -> w <> [] /\ Forall (fun c => p c = true) w.
Proof.
  intros H. apply matches_seq in H as (u & v & -> & Hu & Hv).
  apply matches_class in Hu as (c & -> & Hc).
  apply matches_star_class in Hv. split; [easy|]. cbn. now constructor.
Qed.

Lemma symdef_body_shape u rest :
  matches symdef_body u rest ->
  exists w1 n s x w2,
    u = w1 ++ n ++ s ++ ZERO :: x :: w2
    /\ Forall (fun c => cls_s c = true) w1
    /\ n <> [] /\ Forall (fun c => cls_name c = true) n
    /\ s <> [] /\ Forall (fun c => cls_lit SPACE c = true) s.
Proof.
  unfold symdef_body. intros H.
  apply matches_seq in H as (u5 & w2 & -> & H & _).
  apply matches_seq in H as (u4 & x & -> & H & Hx).
  apply matches_seq in H as (u3 & z & -> & H & Hz).
  apply matches_seq in H as (u2 & s & -> & H & Hs).
  apply matches_seq in H as (w1 & n & -> & Hw1 & Hn).
  apply matches_class in Hx as (x' & -> & _).
  apply matches_class in Hz as (z' & -> & ->%cls_lit_eq).
  apply matches_star_class in Hw1.
  apply matches_plus_class in Hn as [Hn1 Hn2].
  apply matches_plus_class in Hs as [Hs1 Hs2].
  exists w1, n, s, x', w2. repeat split; try assumption.
  rewrite <- !app_assoc. reflexivity.
Qed.

(** The pattern fails at the first digit of the byte, whatever follows. *)
Lemma symdef_re_rejects_at_first_digit lead name sp h1 rest :
  Forall (fun c => cls_s c = true) lead ->
  Forall (fun c => cls_name c = true) name ->
  Forall (fun c => cls_lit SPACE c = true) sp ->
  name <> [] \/ sp = [] ->
  cls_hex h1 = true -> h1 <> ZERO ->
  js_match symdef_re (lead ++ name ++ sp ++ h1 :: rest) = None.
Proof.
  intros Hlead Hname Hsp Hshape Hh1 Hz.
  destruct (js_match symdef_re (lead ++ name ++ sp ++ h1 :: rest)) eqn:E;
    [exfalso|reflexivity].
  assert (Hm : js_match symdef_re (lead ++ name ++ sp ++ h1 :: rest) <> None)
    by congruence.
  clear E. apply js_match_sound in Hm.
  apply matches_seq in Hm as (u12 & u3 & E & Hm & H3).
  apply matches_seq in Hm as (u1 & u2 & -> & H1 & H2).
  rewrite app_nil_r in *. apply matches_star_class in H2.
  assert (Hstop : stops_at cls_s (name ++ sp ++ h1 :: rest)).
  { destruct Hname as [|c name Hc _].
    - destruct Hshape as [[]| ->]; [reflexivity|]. cbn.
      now apply cls_hex_not_space.
    - cbn. now apply cls_name_not_space. }
  assert (Hhead : forall c v, name ++ sp ++ h1 :: rest = c :: v -> c <> HASH).
  { intros c v Ev ->. destruct Hname as [|c name Hc _].
    - destruct Hshape as [[]| ->]; [reflexivity|]. cbn in Ev.
      injection Ev as -> _. discriminate.
    - cbn in Ev. injection Ev as -> _. discriminate. }
  apply matches_opt in H1 as [->|H1].
  - cbn [app] in E.
    assert (H3' : u3 = [] \/ exists v, u3 = HASH :: v).
    { apply matches_opt in H3 as [->|H3]; [now left|]. right.
      apply matches_seq in H3 as (c & v & -> & Hc & _).
      apply matches_class in Hc as (c' & -> & ->%cls_lit_eq). now exists v. }
    destruct (run_unique cls_s lead u2 _ u3 Hlead H2 Hstop) as [_ E'];
      [destruct H3' as [->|[v ->]]; reflexivity | exact E |].
    destruct H3' as [->|[v ->]].
    + destruct name, sp; discriminate.
    + now apply (Hhead _ _ E').
  - apply symdef_body_shape in H1
      as (w1 & n & s & x & w2 & -> & Hw1 & Hn1 & Hn2 & Hs1 & Hs2).
    rewrite <- !app_assoc in E. cbn [app] in E.
    assert (Sn : stops_at cls_s (n ++ s ++ ZERO :: x :: w2 ++ u2 ++ u3)).
    { destruct Hn2 as [|c n Hc _]; [contradiction|]. cbn.
      now apply cls_name_not_space. }
    destruct (run_unique cls_s _ _ _ _ Hlead Hw1 Hstop Sn E) as [_ E1].
    assert (Ssp : stops_at cls_name (sp ++ h1 :: rest)).
    { destruct Hsp as [|c sp Hc _]; cbn; [now apply cls_hex_not_name|].
      now apply cls_lit_eq in Hc as ->. }
    assert (Ss : stops_at cls_name (s ++ ZERO :: x :: w2 ++ u2 ++ u3)).
    { destruct Hs2 as [|c s Hc _]; [contradiction|]. cbn.
      now apply cls_lit_eq in Hc as ->. }
    destruct (run_unique cls_name _ _ _ _ Hname Hn2 Ssp Ss E1) as [_ E2].
    assert (Sh : stops_at (cls_lit SPACE) (h1 :: rest))
      by (now apply cls_hex_not_lit).
    assert (Sz : stops_at (cls_lit SPACE) (ZERO :: x :: w2 ++ u2 ++ u3))
      by reflexivity.
    destruct (run_unique (cls_lit SPACE) _ _ _ _ Hsp Hs2 Sh Sz E2) as [_ E3].
    congruence.
Qed.

Lemma symdef_re_rejects_high_byte_line lead name sp h1 h2 rest :
  Forall (fun c => cls_s c = true) lead ->
  Forall (fun c => cls_name c = true) name ->
  Forall (fun c => cls_lit SPACE c = true) sp ->
  cls_hex h1 = true -> cls_hex h2 = true -> 15 < byte_value h1 h2 ->
  js_match symdef_re (lead ++ name ++ sp ++ [h1; h2] ++ rest) = None.
Proof.
  intros Hlead Hname Hsp Hh1 Hh2 Hhigh.
  pose proof (high_byte_first_digit _ _ Hh2 Hhigh) as Hz.
  destruct name as [|c name].
  - pose proof (symdef_re_rejects_at_first_digit (lead ++ sp) [] [] h1
                  (h2 :: rest)) as H.
    cbn [app] in *. rewrite <- app_assoc in H. apply H; auto.
    apply Forall_app. split; [assumption|].
    eapply Forall_impl; [exact Hsp|]. now intros x ->%cls_lit_eq.
  - apply symdef_re_rejects_at_first_digit; auto.
Qed.

End SlotRangeLines.

(** C6 (as amended).  For every document whose second section has a line
    [NAME vv], as it may be written (blanks before the name, one or more
    spaces before the byte, blanks and a comment or none after it), with
    [vv] two digits of [[0-9a-f]] and a value above [0f] (such as [FOO 10]),
    assembly fails in the validator: [isValid] is [false] and [assemble]
    returns the placeholder text. *)
Theorem high_slot_value_rejected
  (doc syms lead name sp trail tail : jsstring) (h1 h2 : char) :
  js_split section_re doc !! 1%nat = Some syms ->
  In (lead ++ name ++ sp ++ [h1; h2] ++ trail ++ tail) (js_split_on LF syms) ->
  Forall (fun c => cls_s c = true) lead ->
  Forall (fun c => cls_name c = true) name ->
  Forall (fun c => cls_lit SPACE c = true) sp ->
  cls_hex h1 = true -> cls_hex h2 = true ->
  15 < byte_value h1 h2 ->
  Forall (fun c => cls_s c = true) trail -> comment_tail tail ->
  isValid doc = Ret false /\ assemble doc = Ret not_executable.
Proof.
  intros Hsyms Hin Hlead Hname Hsp Hh1 Hh2 Hhigh _ _.
  assert (Hv : isValid doc = Ret false).
  { destruct (isValid_total doc) as [[|] Hv]; [exfalso|assumption].
    apply isValid_true_iff in Hv as (s0 & s1 & s2 & E & H1 & _).
    rewrite E in Hsyms. injection Hsyms as ->.
    rewrite List.Forall_forall in H1. apply (H1 _ Hin).
    now apply symdef_re_rejects_high_byte_line. }
  split; [assumption | now apply assemble_invalid].
Qed.

Lemma high_slot_value_rejected_witness :
  let doc := unlines ["d"; "---"; "N 0f"; "  FOO   10   # slot sixteen"; "---";
                      "halt"] in
  isValid doc = Ret false /\ assemble doc = Ret (str "I'm not executable").
Proof.
  apply (high_slot_value_rejected
           (unlines ["d"; "---"; "N 0f"; "  FOO   10   # slot sixteen"; "---";
                     "halt"])
           (unlines [""; "N 0f"; "  FOO   10   # slot sixteen"; ""])
           (str "  ") (str "FOO") (str "   ") (str "   ")
           (str "# slot sixteen") 49 48).
  - vm_compute; reflexivity.
  - vm_compute. right; right; left; reflexivity.
  - repeat constructor.
  - repeat constructor.
  - repeat constructor.
  - reflexivity.
  - reflexivity.
  - vm_compute; reflexivity.
  - repeat constructor.
  - right. exists (str " slot sixteen"). split; [reflexivity|].
    repeat constructor.
Defined.

(** C6, counterexample.  The line [FOO 10] makes assembly fail, but what
    comes back is the placeholder text, the same as for [BAR 2f]: it is no
    InvalidSlotValue and carries neither the name nor the value. *)
Lemma slot_failure_carries_no_name_or_value :
  assemble (unlines ["d"; "---"; "FOO 10"; "---"; "halt"])
  = Ret (str "I'm not executable")
  /\ assemble (unlines ["d"; "---"; "BAR 2f"; "---"; "halt"])
     = Ret (str "I'm not executable").
Proof. split; vm_compute; reflexivity. Qed.

(** * Where the code departs from its documentation *)

(** C1.  On the valid document below [assemble] returns the text of the code
    section, [res], [vtoa 00] and [halt] on three lines, where four bytes
    [C4 D1 00 00] are due: the substitution passes are stubs that return
    their argument. *)
Theorem assemble_returns_source_text :
  let doc := unlines ["Clear the accumulator."; "---"; ""; "---";
                      "res"; "vtoa 00"; "halt"] in
  isValid doc = Ret true
  /\ assemble doc = Ret (unlines ["res"; "vtoa 00"; "halt"])
  /\ is_byte_text (unlines ["res"; "vtoa 00"; "halt"]) = false
  /\ is_byte_text (str "C4 D1 00 00") = true
  /\ instrumap !! str "res" = Some (str "C4")
  /\ (width (str "res"), width (str "vtoa"), width (str "halt"))
     = (Some 1%nat, Some 2%nat, Some 1%nat).
Proof. repeat split; vm_compute; reflexivity. Qed.

(** C3.  On the valid document below the forward reference [END] is not
    resolved to an address: [buildLabelMap] registers no label and the
    reference is still the name [END] in the result. *)
Theorem forward_reference_left_unresolved :
  let doc := unlines ["Jump ahead."; "---"; ""; "---";
                      "setpc END"; "END: halt"] in
  isValid doc = Ret true
  /\ buildLabelMap (unlines ["setpc END"; "END: halt"]) !! str "END" = None
  /\ assemble doc = Ret (unlines ["setpc END"; "END: halt"]).
Proof. repeat split; vm_compute; reflexivity. Qed.

(** C7.  On the valid document below the label-prefix marker [END:] is
    still in the result of [assemble]: [stripLabels] returns its argument. *)
Theorem label_marker_survives :
  let doc := unlines ["Stop."; "---"; ""; "---"; "END: halt"] in
  isValid doc = Ret true
  /\ assemble doc = Ret (str "END: halt")
  /\ js_test label_marker_re (str "END: halt") = true.
Proof. repeat split; vm_compute; reflexivity. Qed.

(** C4.  The code cuts at any run of three hyphens, not at separator lines.
    The first document has exactly two separator lines and hyphens inside
    its description: it is cut into four pieces and rejected.  The second
    is one line of text with no separator line at all: it is cut into three
    sections and accepted. *)
Theorem hyphens_inside_a_line_separate :
  let d1 := unlines ["Counts a---b."; "---"; "N 0f"; "---"; "halt"] in
  let d2 := str "x --- N 0f --- halt" in
  (length (separator_lines d1) = 2%nat
   /\ length (js_split section_re d1) = 4%nat
   /\ assemble d1 = Ret (str "I'm not executable"))
  /\ (length (separator_lines d2) = 0%nat
      /\ js_split section_re d2 = [str "x"; str "N 0f"; str "halt"]
      /\ isValid d2 = Ret true
      /\ assemble d2 = Ret (str "halt")).
Proof. repeat split; vm_compute; reflexivity. Qed.

(** C10.  [assemble] throws on the document below.  The validator splits the
    raw text, where the separator inside the comment counts, and finds three
    sections; [splitSections] splits the text without comments, finds two,
    and calls [trim] on the missing third. *)
Theorem assemble_throws_on_commented_separator :
  let doc := unlines ["a"; "---"; "# ---"; "halt"] in
  isValid doc = Ret true
  /\ length (js_split section_re doc) = 3%nat
  /\ length (js_split section_re (stripComments doc)) = 2%nat
  /\ assemble doc = Throw TypeError.
Proof. repeat split; vm_compute; reflexivity. Qed.


(** * The matcher finds every match *)

Section MatcherComplete.

Lemma star_iter_self step n s : In s (star_iter step n s).
Proof. destruct n; cbn; [now left|]. apply in_or_app. right. now left. Qed.

Lemma star_iter_more step n s s1 s' :
  In s1 (step s) -> (length s1 < length s)%nat ->
  In s' (star_iter step n s1) -> In s' (star_iter step (S n) s).
Proof.
  intros H1 Hlt Hin.
  change (star_iter step (S n) s)
    with (flat_map (fun s1 => if (length s1 <? length s)%nat
                              then star_iter step n s1 else [])
                   (step s) ++ [s]).
  apply in_or_app. left. apply in_flat_map. exists s1. split; [assumption|].
  destruct (Nat.ltb_spec (length s1) (length s)); [assumption | lia].
Qed.

Lemma rmatch_complete_fuel r u rest :
  matches r u rest ->
  In rest (rmatch r (u ++ rest))
  /\ (forall a, r = Star a -> forall n, (length (u ++ rest) <= n)%nat ->
        In rest (star_iter (rmatch a) n (u ++ rest))).
Proof.
  induction 1 as [rest|p c rest Hp|a b u v rest Ha [IHa _] Hb [IHb _]
                 |a b u rest Ha [IHa _]|a b u rest Hb [IHb _]
                 |a rest|a u v rest Hu Ha [IHa _] Hs [_ IHs]| |c rest Hc|].
  - split; [now left | discriminate].
  - split; [cbn; rewrite Hp; now left | discriminate].
  - split; [|discriminate]. cbn [rmatch]. rewrite <- app_assoc.
    apply in_flat_map. eauto.
  - split; [|discriminate]. cbn [rmatch]. apply in_or_app. now left.
  - split; [|discriminate]. cbn [rmatch]. apply in_or_app. now right.
  - split; [apply star_iter_self | intros; apply star_iter_self].
  - assert (Hfuel : forall n, (length ((u ++ v) ++ rest) <= n)%nat ->
                      In rest (star_iter (rmatch a) n ((u ++ v) ++ rest))).
    { intros n Hn. rewrite <- app_assoc in *.
      destruct u as [|c u]; [contradiction|].
      destruct n as [|n]; [cbn in Hn; lia|].
      apply (star_iter_more _ _ _ (v ++ rest)); [assumption| |].
      - cbn. rewrite !length_app. lia.
      - apply (IHs a eq_refl). cbn in Hn. rewrite !length_app in *. lia. }
    split; [apply Hfuel; reflexivity|].
    intros a' E. injection E as <-. exact Hfuel.
  - split; [now left | discriminate].
  - split; [cbn; rewrite Hc; now left | discriminate].
  - split; [now left | discriminate].
Qed.

Lemma rmatch_complete r u rest :
  matches r u rest -> In rest (rmatch r (u ++ rest)).
Proof. intros H. now apply rmatch_complete_fuel. Qed.

Lemma js_match_complete r s :
  matches r s [] -> js_match (Seq r EndInput) s <> None.
Proof.
  intros H. unfold js_match.
  assert (Hin : In [] (rmatch (Seq r EndInput) s)).
  { rewrite <- (app_nil_r s). rewrite <- (app_nil_r s) in H at 1.
    apply rmatch_complete. rewrite <- (app_nil_r s) at 1.
    constructor; [now rewrite app_nil_r in * | constructor]. }
  destruct (rmatch (Seq r EndInput) s); [destruct Hin | discriminate].
Qed.

Lemma matches_star_class_intro p w rest :
  Forall (fun c => p c = true) w -> matches (Star (Class p)) w rest.
Proof.
  induction 1 as [|c w Hc _ IH]; [constructor|].
  change (c :: w) with ([c] ++ w). constructor; [easy| now constructor | exact IH].
Qed.

Lemma matches_plus_class_intro p w rest :
  w <> [] -> Forall (fun c => p c = true) w -> matches (Plus (Class p)) w rest.
Proof.
  intros Hw H. destruct w as [|c w]; [contradiction|].
  inversion H; subst. change (c :: w) with ([c] ++ w).
  constructor; [now constructor | now apply matches_star_class_intro].
Qed.

Lemma matches_lit a rest : matches (Lit a) [a] rest.
Proof. constructor. unfold cls_lit. apply N.eqb_refl. Qed.

Lemma matches_opt_skip a rest : matches (Opt a) [] rest.
Proof. apply m_alt_r. constructor. Qed.

Lemma matches_opt_take a w rest : matches a w rest -> matches (Opt a) w rest.
Proof. apply m_alt_l. Qed.

End MatcherComplete.

(** * Lines the validator accepts *)

Section AcceptedLines.

Lemma matches_comment_tail tail :
  comment_tail tail -> matches (Opt comment_body) tail [].
Proof.
  intros [->|(c & -> & Hc)]; [apply matches_opt_skip|].
  apply matches_opt_take. unfold comment_body.
  change (HASH :: c) with ([HASH] ++ c).
  constructor; [apply matches_lit | now apply matches_star_class_intro].
Qed.

(** A line is a body (or none), blanks, and a comment (or none). *)
Lemma matches_line body core ws tail :
  core = [] \/ matches body core (ws ++ tail) ->
  Forall (fun c => cls_s c = true) ws -> comment_tail tail ->
  js_match (Opt body · Star (Class cls_s) · Opt comment_body · EndInput)
           (core ++ ws ++ tail) <> None.
Proof.
  intros Hcore Hws Htail. apply js_match_complete.
  rewrite app_assoc. constructor; [|now apply matches_comment_tail].
  rewrite app_nil_r. constructor; [|now apply matches_star_class_intro].
  destruct Hcore as [->|Hcore]; [apply matches_opt_skip|].
  now apply matches_opt_take.
Qed.

Lemma matches_symdef_body name sp h rest :
  name <> [] -> Forall (fun c => cls_name c = true) name ->
  sp <> [] -> Forall (fun c => cls_lit SPACE c = true) sp ->
  cls_hex h = true ->
  matches symdef_body (name ++ sp ++ [ZERO; h]) rest.
Proof.
  intros Hn Hname Hs Hsp Hh. unfold symdef_body.
  replace (name ++ sp ++ [ZERO; h])
    with ((((([] ++ name) ++ sp) ++ [ZERO]) ++ [h]) ++ [])
    by (cbn; rewrite app_nil_r, <- !app_assoc; reflexivity).
  repeat (apply m_seq).
  - constructor.
  - now apply matches_plus_class_intro.
  - now apply matches_plus_class_intro.
  - apply matches_lit.
  - now constructor.
  - constructor.
Qed.

Lemma matches_operand o rest :
  is_operand o ->
  matches (Plus (Lit SPACE) · (Plus (Class cls_name) ∣ Plus (Class cls_hex)))
          (SPACE :: o) rest.
Proof.
  intros [Ho Hcls]. change (SPACE :: o) with ([SPACE] ++ o). constructor.
  - apply matches_plus_class_intro; [easy|]. repeat constructor.
  - destruct Hcls; [apply m_alt_l | apply m_alt_r];
      now apply matches_plus_class_intro.
Qed.

Lemma matches_operands ops rest :
  (length ops <= 2)%nat -> Forall is_operand ops ->
  matches (UpTo2 (Plus (Lit SPACE)
                  · (Plus (Class cls_name) ∣ Plus (Class cls_hex))))
          (concat (map (cons SPACE) ops)) rest.
Proof.
  intros Hlen Hops. destruct ops as [|o1 [|o2 [|o3 ops]]]; cbn in Hlen; [| | |lia].
  - apply matches_opt_skip.
  - inversion Hops; subst. cbn [map concat]. rewrite app_nil_r.
    apply matches_opt_take. rewrite <- (app_nil_r (SPACE :: o1)).
    constructor; [now apply matches_operand | apply matches_opt_skip].
  - inversion Hops as [|? ? H1 Hops']; subst. inversion Hops'; subst.
    cbn [map concat]. rewrite app_nil_r.
    apply matches_opt_take. constructor; [now apply matches_operand|].
    apply matches_opt_take. now apply matches_operand.
Qed.

Lemma matches_code_body label m ops rest :
  match label with
  | Some l => l <> [] /\ Forall (fun c => cls_name c = true) l
  | None => True
  end ->
  m <> [] -> Forall (fun c => cls_lower c = true) m ->
  (length ops <= 2)%nat -> Forall is_operand ops ->
  matches code_body (code_line label m ops) rest.
Proof.
  intros Hl Hm Hlow Hlen Hops. unfold code_body, code_line.
  set (L := match label with Some l => l ++ [COLON] | None => [] end).
  set (W := match label with Some _ => [SPACE] | None => [] end).
  replace (match label with Some l => l ++ [COLON; SPACE] | None => [] end
           ++ m ++ concat (map (cons SPACE) ops))
    with ((((([] ++ L) ++ W) ++ m) ++ concat (map (cons SPACE) ops)) ++ []).
  2: { subst L W. destruct label; cbn; rewrite app_nil_r, <- ?app_assoc;
       reflexivity. }
  repeat (apply m_seq).
  - constructor.
  - subst L. destruct label as [l|]; [|apply matches_opt_skip].
    destruct Hl as [Hl1 Hl2]. apply matches_opt_take.
    constructor; [now apply matches_plus_class_intro | apply matches_lit].
  - subst W. apply matches_star_class_intro. destruct label; repeat constructor.
  - now apply matches_plus_class_intro.
  - now apply matches_operands.
  - constructor.
Qed.

End AcceptedLines.



(** X2.  A line [NAME 0h], with one or more spaces between the name and the
    byte, blanks after it, and a comment or none, is accepted as a SYMDEF
    line. *)
Theorem symdef_line_accepted (name sp ws tail : jsstring) (h : char) :
  name <> [] -> Forall (fun c => cls_name c = true) name ->
  sp <> [] -> Forall (fun c => cls_lit SPACE c = true) sp ->
  cls_hex h = true ->
  Forall (fun c => cls_s c = true) ws -> comment_tail tail ->
  js_match symdef_re ((name ++ sp ++ [ZERO; h]) ++ ws ++ tail) <> None.
Proof.
  intros Hn Hname Hs Hsp Hh Hws Htail.
  apply (matches_line symdef_body); auto.
  right. now apply matches_symdef_body.
Qed.

Lemma symdef_line_accepted_witness :
  js_match symdef_re (str "SUM  02 # the sum") <> None.
Proof.
  apply (symdef_line_accepted (str "SUM") (str "  ") (str " ")
           (str "# the sum") 50).
  - discriminate.
  - repeat constructor.
  - discriminate.
  - repeat constructor.
  - reflexivity.
  - repeat constructor.
  - right. exists (str " the sum"). split; [reflexivity | repeat constructor].
Defined.

Section SlotRangeExact.

Lemma low_byte_first_digit h1 h2 :
  cls_hex h1 = true -> byte_value h1 h2 <= 15 -> h1 = ZERO.
Proof.
  intros H1 Hv. apply cls_hex_bounds in H1.
  unfold byte_value, hex_digit, in_range in Hv. unfold ZERO.
  destruct (N.leb_spec 48 h1), (N.leb_spec h1 57); cbn [andb] in Hv; lia.
Qed.

End SlotRangeExact.

(** X3.  The validator is the range check of the slots: a line [NAME vv],
    with [vv] two digits of [[0-9a-f]], is accepted as a SYMDEF line exactly
    when the value of [vv] is at most [0f]. *)
Theorem symdef_accepts_exactly_low_bytes (name : jsstring) (h1 h2 : char) :
  name <> [] -> Forall (fun c => cls_name c = true) name ->
  cls_hex h1 = true -> cls_hex h2 = true ->
  (js_match symdef_re (name ++ [SPACE; h1; h2]) <> None
   <-> byte_value h1 h2 <= 15).
Proof.
  intros Hn Hname H1 H2. split.
  - intros Hm. destruct (N.le_gt_cases (byte_value h1 h2) 15) as [|Hhigh];
      [assumption|].
    exfalso. apply Hm. now apply symdef_re_rejects_high_byte.
  - intros Hlow. apply low_byte_first_digit in Hlow as ->; [|assumption].
    pose proof (matches_line symdef_body (name ++ [SPACE] ++ [ZERO; h2]) [] [])
      as Hacc.
    rewrite !app_nil_r in Hacc. apply Hacc; [right| |now left]; [|constructor].
    apply matches_symdef_body; auto; try discriminate; repeat constructor.
Qed.

Lemma symdef_accepts_exactly_low_bytes_witness :
  (js_match symdef_re (str "N 0f") <> None <-> byte_value 48 102 <= 15)
  /\ (js_match symdef_re (str "N 1f") <> None <-> byte_value 49 102 <= 15).
Proof.
  split.
  - apply (symdef_accepts_exactly_low_bytes (str "N") 48 102);
      [discriminate | repeat constructor | reflexivity | reflexivity].
  - apply (symdef_accepts_exactly_low_bytes (str "N") 49 102);
      [discriminate | repeat constructor | reflexivity | reflexivity].
Defined.

(** X4.  The validator checks the shape of a CODE line and nothing else: any
    word of lower-case letters passes as a mnemonic, whether the catalog has
    it or not, with any zero, one or two operands that are names or runs of
    hex digits, whatever the instruction declares and whether or not the
    names are defined; a label, blanks and a comment may go with it. *)
Theorem code_line_accepted (label : option jsstring) (m : jsstring)
  (ops : list jsstring) (ws tail : jsstring) :
  match label with
  | Some l => l <> [] /\ Forall (fun c => cls_name c = true) l
  | None => True
  end ->
  m <> [] -> Forall (fun c => cls_lower c = true) m ->
  (length ops <= 2)%nat -> Forall is_operand ops ->
  Forall (fun c => cls_s c = true) ws -> comment_tail tail ->
  js_match code_re (code_line label m ops ++ ws ++ tail) <> None.
Proof.
  intros Hl Hm Hlow Hlen Hops Hws Htail.
  apply (matches_line code_body); auto.
  right. now apply matches_code_body.
Qed.

Lemma code_line_accepted_witness :
  js_match code_re (str "X: frobnicate UNDEFINED ff  # no such mnemonic") <> None
  /\ instructionSet !! str "frobnicate" = None.
Proof.
  split; [|vm_compute; reflexivity].
  apply (code_line_accepted (Some (str "X")) (str "frobnicate")
           [str "UNDEFINED"; str "ff"] (str "  ") (str "# no such mnemonic")).
  - split; [discriminate | repeat constructor].
  - discriminate.
  - repeat constructor.
  - cbn; lia.
  - constructor; [split; [discriminate | left; repeat constructor]|].
    constructor; [split; [discriminate | right; repeat constructor]|].
    constructor.
  - repeat constructor.
  - right. exists (str " no such mnemonic"). split; [reflexivity|].
    repeat constructor.
Defined.

(** * More on the comment stripper *)

Section CommentLines.

Lemma line_terminator_not_hash c : is_line_terminator c = true -> c <> HASH.
Proof. intros Hc ->. discriminate. Qed.

Lemma rest_of_line_terminator t c b :
  is_line_terminator c = true ->
  rest_of_line (t ++ c :: b) = rest_of_line t ++ c :: b.
Proof.
  intros Hc. induction t as [|x t IH]; cbn [app rest_of_line].
  - unfold cls_dot. now rewrite Hc.
  - destruct (cls_dot x); [exact IH | reflexivity].
Qed.

Lemma rest_of_line_all_dot c :
  Forall (fun x => cls_dot x = true) c -> rest_of_line c = [].
Proof. induction 1 as [|x c Hx _ IH]; [reflexivity|]. cbn. now rewrite Hx. Qed.

Lemma stripComments_lines_bounded c b n : is_line_terminator c = true ->
  forall a, (length a <= n)%nat ->
  stripComments (a ++ c :: b) = stripComments a ++ c :: stripComments b.
Proof.
  intros Hc. pose proof (line_terminator_not_hash c Hc) as Hne.
  induction n as [|n IH]; intros a Hn.
  - destruct a; [|cbn in Hn; lia]. cbn [app].
    now rewrite stripComments_other, stripComments_nil.
  - destruct a as [|x t].
    + cbn [app]. now rewrite stripComments_other, stripComments_nil.
    + cbn [app]. destruct (N.eq_dec x HASH) as [->|Hx].
      * rewrite !stripComments_hash, rest_of_line_terminator by assumption.
        apply IH. pose proof (rest_of_line_length t). cbn in Hn. lia.
      * rewrite !stripComments_other by assumption. cbn [app]. f_equal.
        apply IH. cbn in Hn. lia.
Qed.

Lemma stripComments_sublist_bounded n : forall s,
  (length s <= n)%nat -> stripComments s `sublist_of` s.
Proof.
  induction n as [|n IH]; intros s Hn.
  - destruct s; [|cbn in Hn; lia]. rewrite stripComments_nil. constructor.
  - destruct s as [|x t]; [rewrite stripComments_nil; constructor|].
    destruct (N.eq_dec x HASH) as [->|Hx].
    + rewrite stripComments_hash. apply sublist_cons.
      destruct (rest_of_line_suffix t) as [u E]. rewrite E at 2.
      apply sublist_inserts_l, IH.
      pose proof (rest_of_line_length t). cbn in Hn. lia.
    + rewrite stripComments_other by assumption. apply sublist_skip, IH.
      cbn in Hn. lia.
Qed.

Lemma split_on_loop_cur sep rest : forall cur,
  split_on_loop sep cur rest
  = match split_on_loop sep [] rest with
    | p :: ps => (rev cur ++ p) :: ps
    | [] => []
    end.
Proof.
  induction rest as [|c t IH]; intros cur; cbn [split_on_loop].
  - now rewrite app_nil_r.
  - destruct (c =? sep).
    + cbn [rev app]. now rewrite app_nil_r.
    + rewrite IH. rewrite (IH [c]).
      destruct (split_on_loop sep [] t); [reflexivity|].
      cbn [rev app]. now rewrite <- app_assoc.
Qed.

Lemma js_split_on_single sep a : ~ In sep a -> js_split_on sep a = [a].
Proof.
  unfold js_split_on. induction a as [|c t IH]; intros Hin; [reflexivity|].
  cbn [split_on_loop]. destruct (N.eqb_spec c sep) as [->|_].
  - exfalso. apply Hin. now left.
  - rewrite split_on_loop_cur, IH by (intros H; apply Hin; now right).
    reflexivity.
Qed.

Lemma js_split_on_cut sep a b :
  ~ In sep a -> js_split_on sep (a ++ sep :: b) = a :: js_split_on sep b.
Proof.
  unfold js_split_on. induction a as [|c t IH]; intros Hin; cbn [app split_on_loop].
  - now rewrite N.eqb_refl.
  - destruct (N.eqb_spec c sep) as [->|_].
    + exfalso. apply Hin. now left.
    + rewrite split_on_loop_cur, IH by (intros H; apply Hin; now right).
      reflexivity.
Qed.

Lemma first_line sep (s : jsstring) :
  ~ In sep s \/ exists a b, s = a ++ sep :: b /\ ~ In sep a.
Proof.
  induction s as [|c t [IH|(a & b & -> & Ha)]].
  - left. intros [].
  - destruct (N.eq_dec c sep) as [->|Hc].
    + right. exists [], t. split; [reflexivity | intros []].
    + left. intros [E|H]; [congruence | contradiction].
  - destruct (N.eq_dec c sep) as [->|Hc].
    + right. exists [], (a ++ sep :: b). split; [reflexivity | intros []].
    + right. exists (c :: a), b. split; [reflexivity|].
      intros [E|H]; [congruence | contradiction].
Qed.

Lemma stripComments_keeps_out x s : ~ In x s -> ~ In x (stripComments s).
Proof.
  intros Hs Hin. apply Hs.
  pose proof (stripComments_sublist_bounded (length s) s (Nat.le_refl _)) as Hsub.
  apply list_elem_of_In. apply list_elem_of_In in Hin.
  eapply elem_of_sublist; eassumption.
Qed.

Lemma stripComments_by_line_bounded n : forall doc, (length doc <= n)%nat ->
  js_split_on LF (stripComments doc) = map stripComments (js_split_on LF doc).
Proof.
  induction n as [|n IH]; intros doc Hn.
  - destruct doc; [reflexivity | cbn in Hn; lia].
  - destruct (first_line LF doc) as [Hno|(a & b & -> & Ha)].
    + rewrite !js_split_on_single; [reflexivity | assumption |].
      now apply stripComments_keeps_out.
    + rewrite (stripComments_lines_bounded LF b (length a)) by (reflexivity || lia).
      rewrite !js_split_on_cut by (assumption || now apply stripComments_keeps_out).
      cbn [map]. f_equal. apply IH.
      rewrite length_app in Hn. cbn in Hn. lia.
Qed.

End CommentLines.

(** X5.  [stripComments] leaves a text as it is exactly when the text has
    no [#], and no [#] is ever left in its result. *)
Theorem stripComments_fixes_exactly_hash_free (doc : jsstring) :
  ~ In HASH (stripComments doc)
  /\ (stripComments doc = doc <-> ~ In HASH doc).
Proof.
  split; [apply stripComments_no_hash|]. split.
  - intros E. rewrite <- E. apply stripComments_no_hash.
  - apply stripComments_id.
Qed.

(** X6.  [stripComments] only deletes: its result is the document with some
    characters left out, in the same order. *)
Theorem stripComments_only_deletes (doc : jsstring) :
  stripComments doc `sublist_of` doc.
Proof. now apply (stripComments_sublist_bounded (length doc)). Qed.

(** X7.  On a line, [stripComments] keeps everything before the first [#],
    the blanks before it included, and drops the rest of the line. *)
Theorem stripComments_cuts_at_first_hash (pre c : jsstring) :
  ~ In HASH pre -> Forall (fun x => cls_dot x = true) c ->
  stripComments (pre ++ HASH :: c) = pre.
Proof.
  intros Hpre Hc. induction pre as [|x p IH]; cbn [app].
  - now rewrite stripComments_hash, rest_of_line_all_dot.
  - rewrite stripComments_other by (intros ->; apply Hpre; now left).
    f_equal. apply IH. intros H. apply Hpre. now right.
Qed.

Lemma stripComments_cuts_at_first_hash_witness :
  stripComments (str "vtoa 00    # Clear accumulator") = str "vtoa 00    ".
Proof.
  apply (stripComments_cuts_at_first_hash (str "vtoa 00    ")
           (str " Clear accumulator")).
  - vm_compute. intuition discriminate.
  - repeat constructor.
Defined.

(** X8.  A comment never runs over a line terminator: the text before a line
    terminator and the text after it are stripped apart from each other. *)
Theorem stripComments_line_by_line (a b : jsstring) (c : char) :
  is_line_terminator c = true ->
  stripComments (a ++ c :: b) = stripComments a ++ c :: stripComments b.
Proof. intros Hc. now apply (stripComments_lines_bounded c b (length a)). Qed.

Lemma stripComments_line_by_line_witness :
  stripComments (str "inc # i++" ++ LF :: str "halt # stop")
  = stripComments (str "inc # i++") ++ LF :: stripComments (str "halt # stop").
Proof.
  apply (stripComments_line_by_line (str "inc # i++") (str "halt # stop") LF).
  reflexivity.
Defined.

(** X9.  [stripComments] keeps the lines of a document: splitting the result
    at ["\n"] gives the lines of the document, each one stripped. *)
Theorem stripComments_keeps_lines (doc : jsstring) :
  js_split_on LF (stripComments doc) = map stripComments (js_split_on LF doc).
Proof. now apply (stripComments_by_line_bounded (length doc)). Qed.

(** * Splitting into sections *)

Section Splitting.

Lemma section_re_shape s rest :
  In rest (rmatch section_re s) ->
  exists sp post, s = sp ++ str "---" ++ post /\ Forall (fun c => c = SPACE) sp.
Proof.
  intros Hin. apply rmatch_sound in Hin as (u & -> & Hu).
  unfold section_re in Hu.
  apply matches_seq in Hu as (u1 & sp2 & -> & Hu & _).
  apply matches_seq in Hu as (u2 & hs & -> & Hu & Hhs).
  apply matches_seq in Hu as (u3 & h2 & -> & Hu & Hh2).
  apply matches_seq in Hu as (sp & h1 & -> & Hsp & Hh1).
  apply matches_seq in Hhs as (h3 & more & -> & Hh3 & _).
  apply matches_class in Hh1 as (c1 & -> & ->%cls_lit_eq).
  apply matches_class in Hh2 as (c2 & -> & ->%cls_lit_eq).
  apply matches_class in Hh3 as (c3 & -> & ->%cls_lit_eq).
  apply matches_star_class in Hsp.
  exists sp, (more ++ sp2 ++ rest). split.
  - rewrite <- !app_assoc. reflexivity.
  - eapply Forall_impl; [exact Hsp|]. intros c Hc. now apply cls_lit_eq.
Qed.

Lemma quiet_tail x a : quiet (x :: a) -> quiet a.
Proof.
  intros Hq (pre & post & ->). apply Hq. now exists (x :: pre), post.
Qed.

(** No separator starts inside a quiet text, whether the text ends the
    document or a line feed follows. *)
Lemma quiet_no_match a tl :
  quiet a -> tl = [] \/ (exists r, tl = LF :: r) ->
  rmatch section_re (a ++ tl) = [].
Proof.
  intros Hq Htl. destruct (rmatch section_re (a ++ tl)) as [|rest l] eqn:E;
    [reflexivity|exfalso].
  assert (Hin : In rest (rmatch section_re (a ++ tl))) by (rewrite E; now left).
  apply section_re_shape in Hin as (sp & post & Es & Hsp). clear E rest l.
  revert a Hq Es. induction Hsp as [|c sp -> _ IH]; intros a Hq Es.
  - cbn in Es. destruct a as [|x [|y [|z a]]]; cbn in Es.
    + destruct Htl as [->|[r ->]]; discriminate.
    + destruct Htl as [->|[r ->]]; discriminate.
    + destruct Htl as [->|[r ->]]; discriminate.
    + injection Es as -> -> -> _. apply Hq. now exists [], a.
  - destruct a as [|x a]; cbn in Es.
    + destruct Htl as [->|[r ->]]; discriminate.
    + injection Es as -> Es. apply (IH a); [|assumption].
      now apply quiet_tail in Hq.
Qed.

Lemma quiet_nil : quiet [].
Proof. intros (pre & post & E). destruct pre; discriminate. Qed.

Lemma section_re_at_line_feed s : rmatch section_re (LF :: s) = [].
Proof. apply (quiet_no_match [] (LF :: s) quiet_nil). eauto. Qed.

Lemma split_loop_quiet s : forall a cur, quiet a ->
  split_loop section_re 0 cur (a ++ LF :: s)
  = split_loop section_re 0 (LF :: rev a ++ cur) s.
Proof.
  induction a as [|x a IH]; intros cur Hq.
  - cbn [app rev split_loop]. now rewrite section_re_at_line_feed.
  - cbn [app split_loop].
    change (x :: a ++ LF :: s) with ((x :: a) ++ LF :: s).
    rewrite (quiet_no_match (x :: a) (LF :: s)) by eauto.
    rewrite IH by (now apply quiet_tail in Hq).
    cbn [rev]. now rewrite <- app_assoc.
Qed.

Lemma split_loop_quiet_end : forall a cur, quiet a ->
  split_loop section_re 0 cur a = [rev cur ++ a].
Proof.
  induction a as [|x a IH]; intros cur Hq.
  - cbn. now rewrite app_nil_r.
  - cbn [split_loop].
    rewrite <- (app_nil_r (x :: a)) at 1.
    rewrite (quiet_no_match (x :: a) []) by auto.
    rewrite IH by (now apply quiet_tail in Hq).
    cbn [rev]. now rewrite <- app_assoc.
Qed.

(** At a line [---] the piece ends, and the next one begins with the line
    feed that closes the line. *)
Lemma split_loop_separator cur s :
  split_loop section_re 0 cur (str "---" ++ LF :: s)
  = rev cur :: split_loop section_re 0 [LF] s.
Proof.
  assert (E : rmatch section_re (str "---" ++ LF :: s) = [LF :: s])
    by reflexivity.
  change (str "---" ++ LF :: s) with (HYPHEN :: HYPHEN :: HYPHEN :: LF :: s) in *.
  cbn [split_loop]. rewrite E.
  replace (length (HYPHEN :: HYPHEN :: HYPHEN :: LF :: s) - length (LF :: s))%nat
    with 3%nat by (cbn [length]; lia).
  now rewrite section_re_at_line_feed.
Qed.

Lemma js_split_document desc syms code :
  quiet desc -> quiet syms -> quiet code ->
  js_split section_re (document desc syms code)
  = [desc ++ [LF]; LF :: syms ++ [LF]; LF :: code].
Proof.
  intros Hd Hs Hc.
  assert (E : js_split section_re (document desc syms code)
              = split_loop section_re 0 [] (document desc syms code))
    by (unfold document; destruct desc; reflexivity).
  rewrite E. unfold document.
  rewrite split_loop_quiet, split_loop_separator by assumption.
  rewrite split_loop_quiet, split_loop_separator by assumption.
  rewrite split_loop_quiet_end by assumption.
  cbn [rev app]. rewrite ?rev_app_distr, ?rev_involutive, ?app_nil_r.
  cbn [rev app]. rewrite ?rev_app_distr, ?rev_involutive, ?app_nil_r.
  reflexivity.
Qed.

Lemma three_hyphens_quiet s : three_hyphens s = false -> quiet s.
Proof.
  intros H (pre & post & ->). revert H.
  induction pre as [|x pre IH]; cbn [app three_hyphens].
  - discriminate.
  - intros H. apply orb_false_iff in H as [_ H]. now apply IH.
Qed.

End Splitting.

(** * Trimming *)

Section Trimming.

Lemma trim_start_clean s : starts_clean (trim_start s).
Proof.
  induction s as [|c t IH]; [exact I|]. cbn [trim_start].
  destruct (cls_s c) eqn:Hc; [exact IH | exact Hc].
Qed.

Lemma trim_start_id s : starts_clean s -> trim_start s = s.
Proof. destruct s as [|c t]; [reflexivity|]. cbn. now intros ->. Qed.

Lemma starts_clean_app s t : s <> [] -> starts_clean (s ++ t) -> starts_clean s.
Proof. destruct s; [contradiction | now cbn]. Qed.

(** Trimming at the start leaves the end as it was. *)
Lemma trim_start_end s :
  starts_clean (rev s) -> starts_clean (rev (trim_start s)).
Proof.
  induction s as [|c t IH]; [trivial|]. cbn [trim_start rev]. intros H.
  destruct (cls_s c) eqn:Hc; [|exact H].
  apply IH. destruct (rev t) eqn:E; [exact I|].
  apply (starts_clean_app _ [c]); [discriminate | exact H].
Qed.

Lemma js_trim_clean s :
  starts_clean (js_trim s) /\ starts_clean (rev (js_trim s)).
Proof.
  unfold js_trim. rewrite rev_involutive. split; [|apply trim_start_clean].
  apply trim_start_end. rewrite rev_involutive. apply trim_start_clean.
Qed.

Lemma js_trim_id s :
  starts_clean s -> starts_clean (rev s) -> js_trim s = s.
Proof.
  intros H1 H2. unfold js_trim.
  now rewrite (trim_start_id s), (trim_start_id (rev s)), rev_involutive.
Qed.

Lemma js_trim_idempotent s : js_trim (js_trim s) = js_trim s.
Proof. destruct (js_trim_clean s). now apply js_trim_id. Qed.

Lemma trim_start_snoc s w :
  cls_s w = true ->
  trim_start (s ++ [w])
  = match trim_start s with [] => [] | _ :: _ => trim_start s ++ [w] end.
Proof.
  intros Hw. induction s as [|c t IH]; cbn [app trim_start].
  - now rewrite Hw.
  - destruct (cls_s c); [exact IH | reflexivity].
Qed.

Lemma js_trim_snoc s w : cls_s w = true -> js_trim (s ++ [w]) = js_trim s.
Proof.
  intros Hw. unfold js_trim. rewrite trim_start_snoc by assumption.
  destruct (trim_start s) as [|c t]; [reflexivity|].
  rewrite rev_app_distr. cbn [rev app trim_start]. now rewrite Hw.
Qed.

Lemma js_trim_cons s w : cls_s w = true -> js_trim (w :: s) = js_trim s.
Proof. intros Hw. unfold js_trim. cbn [trim_start]. now rewrite Hw. Qed.

Lemma trim_start_In x s : In x (trim_start s) -> In x s.
Proof.
  induction s as [|c t IH]; [trivial|]. cbn [trim_start].
  destruct (cls_s c); [|trivial]. intros H. right. now apply IH.
Qed.

Lemma js_trim_In x s : In x (js_trim s) -> In x s.
Proof.
  unfold js_trim. intros H. apply in_rev in H.
  apply trim_start_In in H. apply in_rev in H. now apply trim_start_In.
Qed.

End Trimming.

(** * The sections and the result *)

Section Sections.

Lemma split_loop_In sep x : forall rest skip cur piece,
  In piece (split_loop sep skip cur rest) -> In x piece ->
  In x cur \/ In x rest.
Proof.
  induction rest as [|c t IH]; intros skip cur piece Hp Hx; cbn [split_loop] in Hp.
  - destruct Hp as [<-|[]]. left. now apply in_rev.
  - assert (Hcons : forall cur', In piece (split_loop sep 0 (c :: cur') t) ->
                                 In x cur' \/ In x (c :: t)).
    { intros cur' H. destruct (IH _ _ _ H Hx) as [[->|H1]|H1];
        [right; now left | now left | right; now right]. }
    assert (Hrev : piece = rev cur -> In x cur \/ In x (c :: t)).
    { intros ->. left. now apply in_rev. }
    destruct skip as [|k].
    + destruct (rmatch sep (c :: t)) as [|rest' l]; [now apply Hcons|].
      destruct (length (c :: t) - length rest')%nat as [|k].
      * destruct cur as [|y cur].
        -- destruct (Hcons [] Hp) as [[]|H]; now right.
        -- destruct Hp as [<-|Hp]; [now apply Hrev|].
           destruct (Hcons [] Hp) as [[]|H]. now right.
      * destruct Hp as [<-|Hp]; [now apply Hrev|].
        destruct (IH _ _ _ Hp Hx) as [[]|H]. right; now right.
    + destruct (IH _ _ _ Hp Hx) as [H|H]; [now left | right; now right].
Qed.

Lemma js_split_In sep s piece x :
  In piece (js_split sep s) -> In x piece -> In x s.
Proof.
  unfold js_split. destruct s as [|c t].
  - destruct (rmatch sep []); [|intros []]. intros [<-|[]] H. exact H.
  - intros Hp Hx. now destruct (split_loop_In sep x _ _ _ _ Hp Hx) as [[]|H].
Qed.

Lemma splitSections_three doc a b c more :
  js_split section_re doc = a :: b :: c :: more ->
  splitSections doc
  = Ret {| sec_desc := js_trim a; sec_syms := js_trim b; sec_code := js_trim c |}.
Proof. intros E. unfold splitSections. now rewrite E. Qed.

Lemma splitSections_short doc :
  (length (js_split section_re doc) < 3)%nat -> splitSections doc = Throw TypeError.
Proof.
  intros Hn. unfold splitSections.
  destruct (js_split section_re doc) as [|a [|b [|c more]]];
    try reflexivity. cbn in Hn. lia.
Qed.

Lemma split_on_loop_app sep y : forall x cur,
  split_on_loop sep cur (x ++ sep :: y)
  = split_on_loop sep cur x ++ split_on_loop sep [] y.
Proof.
  induction x as [|c t IH]; intros cur; cbn [app split_on_loop].
  - now rewrite N.eqb_refl.
  - destruct (c =? sep); [cbn [app]; f_equal|]; apply IH.
Qed.

Lemma js_split_on_app sep x y :
  js_split_on sep (x ++ sep :: y) = js_split_on sep x ++ js_split_on sep y.
Proof. apply split_on_loop_app. Qed.

Lemma all_match_app re l1 l2 :
  all_match re (l1 ++ l2) = all_match re l1 && all_match re l2.
Proof.
  unfold all_match. rewrite !reduce_and. cbn [andb].
  now rewrite map_app, forallb_app.
Qed.

(** The blank lines around a section do not count in its validation. *)
Lemma all_match_padded re s :
  js_match re [] <> None ->
  all_match re (js_split_on LF (LF :: s ++ [LF])) = all_match re (js_split_on LF s).
Proof.
  intros Hblank.
  assert (Hb : all_match re [[]] = true)
    by (apply all_match_Forall; now repeat constructor).
  change (LF :: s ++ [LF]) with ([] ++ LF :: (s ++ LF :: [])).
  rewrite !js_split_on_app, !all_match_app.
  change (js_split_on LF []) with [[] : list N].
  rewrite Hb. cbn [andb]. now rewrite andb_true_r.
Qed.

Lemma all_match_led re s :
  js_match re [] <> None ->
  all_match re (js_split_on LF (LF :: s)) = all_match re (js_split_on LF s).
Proof.
  intros Hblank.
  assert (Hb : all_match re [[]] = true)
    by (apply all_match_Forall; now repeat constructor).
  change (LF :: s) with ([] ++ LF :: s).
  rewrite js_split_on_app, all_match_app.
  change (js_split_on LF []) with [[] : list N].
  now rewrite Hb.
Qed.

(** The first character of a stripped text that is no line terminator is the
    first character of the text. *)
Lemma stripComments_head y r t :
  cls_dot y = true -> stripComments t = y :: r ->
  exists t', t = y :: t' /\ stripComments t' = r.
Proof.
  intros Hy E. destruct t as [|d t']; [discriminate|].
  destruct (N.eq_dec d HASH) as [->|Hd].
  - exfalso. rewrite stripComments_hash in E.
    destruct (rest_of_line t') as [|z q] eqn:Er.
    + discriminate.
    + assert (Hz : cls_dot z = false).
      { clear E. revert Er. induction t' as [|a t'' IH]; [discriminate|].
        cbn [rest_of_line]. destruct (cls_dot a) eqn:Ha; [exact IH|].
        intros [= <- _]. exact Ha. }
      rewrite stripComments_other in E.
      * injection E as -> _. congruence.
      * intros ->. discriminate.
  - rewrite stripComments_other in E by assumption.
    injection E as -> E. eauto.
Qed.

Lemma stripComments_quiet_bounded n : forall s, (length s <= n)%nat ->
  quiet s -> quiet (stripComments s).
Proof.
  induction n as [|n IH]; intros s Hn Hq.
  - destruct s; [|cbn in Hn; lia]. now rewrite stripComments_nil.
  - destruct s as [|c t]; [now rewrite stripComments_nil|].
    destruct (N.eq_dec c HASH) as [->|Hc].
    + rewrite stripComments_hash. apply IH.
      * pose proof (rest_of_line_length t). cbn in Hn. lia.
      * destruct (rest_of_line_suffix t) as [u E].
        intros (pre & post & E'). apply Hq.
        exists (HASH :: u ++ pre), post. cbn. f_equal.
        rewrite E at 1. rewrite E'. now rewrite <- app_assoc.
    + rewrite stripComments_other by assumption.
      intros (pre & post & E). destruct pre as [|p pre].
      * cbn in E. injection E as -> E.
        apply stripComments_head in E as (t1 & -> & E); [|reflexivity].
        apply stripComments_head in E as (t2 & -> & E); [|reflexivity].
        apply Hq. now exists [], t2.
      * cbn in E. injection E as -> E.
        apply (IH t); [cbn in Hn; lia | now apply quiet_tail in Hq |].
        now exists pre, post.
Qed.

Lemma stripComments_at_line_feed a b :
  stripComments (a ++ LF :: b) = stripComments a ++ LF :: stripComments b.
Proof. now apply (stripComments_lines_bounded LF b (length a)). Qed.

Lemma stripComments_document desc syms code :
  stripComments (document desc syms code)
  = document (stripComments desc) (stripComments syms) (stripComments code).
Proof.
  unfold document. rewrite !stripComments_at_line_feed.
  change (stripComments (str "---")) with (str "---"). reflexivity.
Qed.

End Sections.

(** X10.  A document without a run of three hyphens is one piece for the
    splitter, so the validator rejects it and [assemble] gives the
    placeholder. *)
Theorem document_without_separator_rejected (doc : jsstring) :
  quiet doc ->
  js_split section_re doc = [doc]
  /\ isValid doc = Ret false
  /\ assemble doc = Ret not_executable.
Proof.
  intros Hq.
  assert (E : js_split section_re doc = [doc]).
  { destruct doc as [|c t]; [reflexivity|].
    unfold js_split. now rewrite split_loop_quiet_end. }
  assert (Hv : isValid doc = Ret false)
    by (apply isValid_not_three; now rewrite E).
  repeat split; [assumption.. | now apply assemble_invalid].
Qed.

Lemma document_without_separator_rejected_witness :
  isValid (str "res -- halt") = Ret false.
Proof.
  apply (document_without_separator_rejected (str "res -- halt")).
  intros (pre & post & E). cbn in E.
  repeat (destruct pre as [|? pre];
          [discriminate | first [injection E as _ E | discriminate]]).
Defined.

(** X11.  [splitSections] throws a TypeError exactly when the split gives
    fewer than three pieces; with three or more it returns the first three,
    trimmed, and drops the others without a word. *)
Theorem splitSections_throws_iff_short (doc : jsstring) :
  (splitSections doc = Throw TypeError
   <-> (length (js_split section_re doc) < 3)%nat)
  /\ (forall a b c more, js_split section_re doc = a :: b :: c :: more ->
        splitSections doc
        = Ret {| sec_desc := js_trim a; sec_syms := js_trim b;
                 sec_code := js_trim c |}).
Proof.
  split; [|intros a b c more; apply splitSections_three].
  split; [|apply splitSections_short].
  destruct (js_split section_re doc) as [|a [|b [|c more]]] eqn:E;
    cbn [length]; try lia.
  rewrite (splitSections_three _ _ _ _ _ E). discriminate.
Qed.

Lemma splitSections_throws_iff_short_witness :
  splitSections (str "only --- two") = Throw TypeError
  /\ splitSections (str "a --- b --- c --- d")
     = Ret {| sec_desc := str "a"; sec_syms := str "b"; sec_code := str "c" |}.
Proof.
  split.
  - apply (proj1 (splitSections_throws_iff_short (str "only --- two"))).
    vm_compute. lia.
  - apply (proj2 (splitSections_throws_iff_short (str "a --- b --- c --- d"))
             (str "a") (str "b") (str "c") [str "d"]).
    vm_compute; reflexivity.
Defined.

(** X12.  Every section [splitSections] returns is trimmed: it neither
    begins nor ends with white space or a line terminator, so trimming it
    again changes nothing. *)
Theorem splitSections_fields_trimmed (doc : jsstring) (s : sections) :
  splitSections doc = Ret s ->
  js_trim (sec_desc s) = sec_desc s
  /\ js_trim (sec_syms s) = sec_syms s
  /\ js_trim (sec_code s) = sec_code s.
Proof.
  intros E.
  destruct (js_split section_re doc) as [|a [|b [|c more]]] eqn:Es;
    try (rewrite splitSections_short in E by (rewrite Es; cbn; lia);
         discriminate).
  rewrite (splitSections_three _ _ _ _ _ Es) in E. injection E as <-.
  cbn [sec_desc sec_syms sec_code]. now rewrite !js_trim_idempotent.
Qed.

Lemma splitSections_fields_trimmed_witness :
  let s := {| sec_desc := str "x"; sec_syms := str "N 0f"; sec_code := str "halt" |} in
  js_trim (sec_desc s) = sec_desc s
  /\ js_trim (sec_syms s) = sec_syms s
  /\ js_trim (sec_code s) = sec_code s.
Proof.
  apply (splitSections_fields_trimmed (str "  x  --- N 0f --- halt  ")).
  vm_compute; reflexivity.
Defined.

(** X13.  A document in the layout of the exercises, with no run of three
    hyphens inside its three parts, is split where the two [---] lines are:
    the sections [splitSections] returns are the three parts, trimmed. *)
Theorem splitSections_document (desc syms code : jsstring) :
  quiet desc -> quiet syms -> quiet code ->
  js_split section_re (document desc syms code)
  = [desc ++ [LF]; LF :: syms ++ [LF]; LF :: code]
  /\ splitSections (document desc syms code)
     = Ret {| sec_desc := js_trim desc; sec_syms := js_trim syms;
              sec_code := js_trim code |}.
Proof.
  intros Hd Hs Hc.
  pose proof (js_split_document desc syms code Hd Hs Hc) as E.
  split; [assumption|]. rewrite (splitSections_three _ _ _ _ _ E).
  now rewrite js_trim_snoc, !js_trim_cons, js_trim_snoc.
Qed.

Lemma splitSections_document_witness :
  splitSections (unlines ["Exercise 2"; "---"; "N 0f"; "---"; "halt"])
  = Ret {| sec_desc := str "Exercise 2"; sec_syms := str "N 0f";
           sec_code := str "halt" |}.
Proof.
  apply (splitSections_document (str "Exercise 2") (str "N 0f") (str "halt"));
    apply three_hyphens_quiet; reflexivity.
Defined.

(** X14.  A document in that layout is valid exactly when every line of the
    symbol definitions matches the SYMDEF pattern and every line of the code
    matches the CODE pattern; the description is free. *)
Theorem isValid_document (desc syms code : jsstring) :
  quiet desc -> quiet syms -> quiet code ->
  isValid (document desc syms code)
  = Ret (all_match symdef_re (js_split_on LF syms)
         && all_match code_re (js_split_on LF code)).
Proof.
  intros Hd Hs Hc.
  rewrite (isValid_three _ _ _ _ (js_split_document desc syms code Hd Hs Hc)).
  rewrite all_match_padded, all_match_led; [reflexivity| |]; discriminate.
Qed.

Lemma isValid_document_witness :
  isValid (unlines ["Exercise 2"; "---"; "N 0f"; "---"; "halt"]) = Ret true.
Proof.
  apply (isValid_document (str "Exercise 2") (str "N 0f") (str "halt"));
    apply three_hyphens_quiet; reflexivity.
Defined.

(** X15.  On a valid document in that layout [assemble] does not throw: it
    returns the code part without its comments, trimmed, and nothing of it
    is encoded. *)
Theorem assemble_document (desc syms code : jsstring) :
  quiet desc -> quiet syms -> quiet code ->
  isValid (document desc syms code) = Ret true ->
  assemble (document desc syms code) = Ret (js_trim (stripComments code)).
Proof.
  intros Hd Hs Hc Hv. unfold assemble.
  rewrite (assemble_valid _ _ Hv), stripComments_document.
  assert (Hq : forall s, quiet s -> quiet (stripComments s))
    by (intros s; now apply (stripComments_quiet_bounded (length s))).
  pose proof (js_split_document _ _ _ (Hq _ Hd) (Hq _ Hs) (Hq _ Hc)) as E.
  rewrite (splitSections_three _ _ _ _ _ E).
  change (Ret (js_trim (LF :: stripComments code))
          = Ret (js_trim (stripComments code))).
  now rewrite js_trim_cons.
Qed.

Lemma assemble_document_witness :
  assemble (unlines ["Exercise 2"; "---"; "N 0f"; "---"; "  ator N  # store"])
  = Ret (str "ator N").
Proof.
  apply (assemble_document (str "Exercise 2") (str "N 0f")
           (str "  ator N  # store"));
    [apply three_hyphens_quiet; reflexivity.. | vm_compute; reflexivity].
Defined.

(** X16.  [assemble] does not throw on a document without [#]: the text the
    validator splits and the text [splitSections] splits are then the
    same. *)
Theorem assemble_returns_without_comments (doc : jsstring) :
  ~ In HASH doc -> exists out, assemble doc = Ret out.
Proof.
  intros Hh. unfold assemble. destruct (isValid_total doc) as [[|] Hv].
  - rewrite (assemble_valid _ _ Hv), (stripComments_id _ Hh).
    apply isValid_true_iff in Hv as (s0 & s1 & s2 & E & _).
    rewrite (splitSections_three _ _ _ _ _ E). eauto.
  - rewrite (assemble_invalid _ _ Hv). eauto.
Qed.

Lemma assemble_returns_without_comments_witness :
  exists out, assemble (unlines ["a"; "---"; "N 0f"; "---"; "halt"]) = Ret out.
Proof.
  apply (assemble_returns_without_comments
           (unlines ["a"; "---"; "N 0f"; "---"; "halt"])).
  vm_compute. intuition discriminate.
Defined.

(** X17.  Whatever [assemble] returns has no [#] in it and is trimmed. *)
Theorem assemble_result_clean (doc out : jsstring) :
  assemble doc = Ret out -> ~ In HASH out /\ js_trim out = out.
Proof.
  unfold assemble. intros E. destruct (isValid_total doc) as [[|] Hv].
  - rewrite (assemble_valid _ _ Hv) in E.
    destruct (js_split section_re (stripComments doc)) as [|a [|b [|c more]]] eqn:Es;
      try (rewrite splitSections_short in E by (rewrite Es; cbn; lia);
           discriminate).
    rewrite (splitSections_three _ _ _ _ _ Es) in E. injection E as <-.
    split; [|apply js_trim_idempotent].
    intros Hin. apply js_trim_In in Hin.
    apply (stripComments_no_hash doc).
    apply (js_split_In section_re _ c); [|assumption].
    rewrite Es. right; right; now left.
  - rewrite (assemble_invalid _ _ Hv) in E. injection E as <-.
    split; [vm_compute; intuition discriminate | reflexivity].
Qed.

Lemma assemble_result_clean_witness :
  ~ In HASH (str "halt") /\ js_trim (str "halt") = str "halt".
Proof.
  apply (assemble_result_clean
           (unlines ["a"; "---"; "N 0f # slot"; "---"; "  halt  # stop"])).
  vm_compute; reflexivity.
Defined.

(** * The catalog *)

Section Catalog.

Lemma reduce_byte_lookup (M : gmap (list N) instruction) (ks : list jsstring) :
  forall (acc : gmap (list N) (list N)) (k : jsstring),
  fold_left
    (fun (acc : gmap (list N) (list N)) key =>
       match M !! key with
       | Some i => <[key := byte i]> acc
       | None => acc
       end) ks acc !! k
  = if decide (k ∈ ks)
    then match M !! k with Some i => Some (byte i) | None => acc !! k end
    else acc !! k.
Proof.
  induction ks as [|a ks IH]; intros acc k; cbn [fold_left].
  - case_decide as H; [inversion H | reflexivity].
  - rewrite IH. destruct (decide (a = k)) as [->|Hne].
    + rewrite (decide_True (P := k ∈ k :: ks)) by left.
      destruct (M !! k) as [i|] eqn:E.
      * rewrite lookup_insert_eq. now case_decide.
      * now case_decide.
    + assert (Hk : match M !! a with
                   | Some i => <[a := byte i]> acc
                   | None => acc
                   end !! k = acc !! k).
      { destruct (M !! a); [now rewrite lookup_insert_ne | reflexivity]. }
      rewrite Hk.
      destruct (decide (k ∈ ks)) as [Hin|Hout].
      * rewrite decide_True by now right. reflexivity.
      * rewrite decide_False; [reflexivity|].
        intros [->|H]%elem_of_cons; [congruence | contradiction].
Qed.

Lemma distinct_images {A B : Type} (f : A -> B) (l : list A) x y :
  NoDup (map f l) -> In x l -> In y l -> f x = f y -> x = y.
Proof.
  induction l as [|a l IH]; intros Hnd Hx Hy E; [destruct Hx|].
  cbn [map] in Hnd. apply NoDup_cons in Hnd as [Ha Hnd].
  rewrite list_elem_of_In in Ha.
  destruct Hx as [<-|Hx], Hy as [<-|Hy]; auto.
  - exfalso. apply Ha. rewrite E. now apply in_map.
  - exfalso. apply Ha. rewrite <- E. now apply in_map.
Qed.

Lemma instrumap_lookup_aux (key : jsstring) :
  instrumap !! key = byte <$> instructionSet !! key.
Proof.
  unfold instrumap. rewrite reduce_byte_lookup. case_decide as Hk.
  - now destruct (instructionSet !! key).
  - rewrite lookup_empty. unfold instructionSet.
    rewrite (not_elem_of_list_to_map_1 instructionSet_literal key); [reflexivity|].
    exact Hk.
Qed.

End Catalog.

(** X18.  The own keys of [instrumap] are the own keys of [instructionSet],
    the mnemonics, and each one holds the [byte] of its entry. *)
Theorem instrumap_own_keys :
  dom instrumap =@{gset (list N)} dom instructionSet
  /\ (forall key i, instructionSet !! key = Some i ->
                    instrumap !! key = Some (byte i)).
Proof.
  split.
  - apply set_eq. intros k.
    now rewrite !elem_of_dom, instrumap_lookup_aux, fmap_is_Some.
  - intros key i E. now rewrite instrumap_lookup_aux, E.
Qed.

Lemma instrumap_own_keys_witness : instrumap !! str "halt" = Some (str "00").
Proof.
  apply (proj2 instrumap_own_keys (str "halt")
           {| byte := str "00"; op1 := None; op2 := None;
              desc := str "Halt program execution" |}).
  vm_compute; reflexivity.
Defined.

(** X19.  No two mnemonics of the catalog have the same opcode byte. *)
Theorem opcodes_distinct (k1 k2 b : jsstring) :
  instrumap !! k1 = Some b -> instrumap !! k2 = Some b -> k1 = k2.
Proof.
  rewrite !instrumap_lookup_aux. intros H1 H2.
  destruct (instructionSet !! k1) as [i1|] eqn:E1; [|discriminate].
  destruct (instructionSet !! k2) as [i2|] eqn:E2; [|discriminate].
  injection H1 as H1. injection H2 as H2.
  apply elem_of_list_to_map_2, list_elem_of_In in E1, E2.
  assert (E : (k1, i1) = (k2, i2)); [|congruence].
  apply (distinct_images (fun p => byte (snd p)) instructionSet_literal);
    [| assumption | assumption | cbn; congruence].
  apply (bool_decide_unpack _). vm_compute. exact I.
Qed.

Lemma opcodes_distinct_witness : str "halt" = str "halt".
Proof.
  apply (opcodes_distinct (str "halt") (str "halt") (str "00"));
    vm_compute; reflexivity.
Defined.

(** * The command line *)

Section CommandLine.

Lemma js_test_here r s : rmatch r s <> [] -> js_test r s = true.
Proof. destruct s; cbn; destruct (rmatch r _); congruence. Qed.

Lemma js_test_later r pre s : js_test r s = true -> js_test r (pre ++ s) = true.
Proof.
  intros H. induction pre as [|c pre IH]; [exact H|].
  cbn [app js_test]. now destruct (rmatch r (c :: pre ++ s)).
Qed.

Lemma js_test_found r s :
  js_test r s = true -> exists pre suf, s = pre ++ suf /\ rmatch r suf <> [].
Proof.
  induction s as [|c t IH]; cbn [js_test].
  - destruct (rmatch r []) eqn:E; [discriminate|]. intros _.
    exists [], []. split; [reflexivity | now rewrite E].
  - destruct (rmatch r (c :: t)) eqn:E.
    + intros H. destruct (IH H) as (pre & suf & -> & Hs).
      now exists (c :: pre), suf.
    + intros _. exists [], (c :: t). split; [reflexivity | now rewrite E].
Qed.

Lemma matches_mx_re u rest : matches mx_re u rest -> exists d, u = d ++ str ".mx".
Proof.
  unfold mx_re. intros H.
  apply matches_seq in H as (u1 & x & -> & H & Hx).
  apply matches_seq in H as (u2 & m & -> & H & Hm).
  apply matches_seq in H as (d & dot & -> & _ & Hdot).
  apply matches_class in Hx as (? & -> & ->%cls_lit_eq).
  apply matches_class in Hm as (? & -> & ->%cls_lit_eq).
  apply matches_class in Hdot as (? & -> & ->%cls_lit_eq).
  exists d. now rewrite <- !app_assoc.
Qed.

Lemma mx_re_test path : js_test mx_re path = true <-> occurs_in (str ".mx") path.
Proof.
  split.
  - intros H. apply js_test_found in H as (pre & suf & -> & Hs).
    destruct (rmatch mx_re suf) as [|rest l] eqn:E; [contradiction|].
    assert (Hin : In rest (rmatch mx_re suf)) by (rewrite E; now left).
    apply rmatch_sound in Hin as (u & -> & Hu).
    apply matches_mx_re in Hu as (d & ->).
    exists (pre ++ d), rest. now rewrite <- !app_assoc.
  - intros (pre & post & ->). apply js_test_later, js_test_here.
    assert (Hm : matches mx_re (str ".mx") post).
    { unfold mx_re. change (str ".mx") with ((([] ++ [DOT]) ++ [109]) ++ [120]).
      repeat apply m_seq; try apply matches_lit. constructor. }
    apply rmatch_complete in Hm. intros E. rewrite E in Hm. destruct Hm.
Qed.







End CommandLine.

(** X20.  Called with three arguments, [main] refuses the path, with the
    message about the extension and exit code 1, exactly when [.mx] occurs
    nowhere in it: the check does not ask for [.mx] at the end. *)
Theorem main_extension_check (a0 a1 path : jsstring) (w : world) :
  main [a0; a1; path] w
  = (Returned 1,
     console_error (str "Input file must have extension '.mx', give " ++ path) w)
  <-> ~ occurs_in (str ".mx") path.
Proof.
  rewrite <- mx_re_test. unfold main.
  cbn [length Nat.eqb negb].
  change ([a0; a1; path] !! 2%nat) with (Some path). cbv iota.
  destruct (js_test mx_re path); cbn [negb].
  - split; [|congruence].
    destruct (files w !! path); [destruct (assemble l)|]; discriminate.
  - split; [congruence | reflexivity].
Qed.





(** X23.  [main] returns 0 or 1 and nothing else, and it changes the files
    only when it returns 0: after a usage error, a missing file or an
    exception of [assemble] every file is as it was. *)
Theorem main_writes_only_on_success (argv : list jsstring) (w w' : world)
  (e : ending) :
  main argv w = (e, w') ->
  (forall c, e = Returned c -> c = 0 \/ c = 1)
  /\ (e <> Returned 0 -> files w' = files w).
Proof.
  unfold main. intros E.
  destruct (negb (length argv =? 3)%nat).
  { injection E as <- <-. split; [intros c [= <-]; now right | reflexivity]. }
  destruct (argv !! 2%nat) as [path|].
  2: { injection E as <- <-. split; [discriminate | reflexivity]. }
  destruct (negb (js_test mx_re path)).
  { injection E as <- <-. split; [intros c [= <-]; now right | reflexivity]. }
  destruct (files w !! path) as [code|].
  2: { injection E as <- <-. split; [discriminate | reflexivity]. }
  destruct (assemble code) as [exe|err]; injection E as <- <-.
  - split; [intros c [= <-]; now left | congruence].
  - split; [discriminate | reflexivity].
Qed.

Lemma main_writes_only_on_success_witness :
  let w := {| files := ∅; stderr := [] |} in
  (forall c, Returned 1 = Returned c -> c = 0 \/ c = 1)
  /\ (Returned 1 <> Returned 0 ->
      files (console_error (str "Usage: ts-node assembler.ts file.mx") w)
      = files w).
Proof.
  apply (main_writes_only_on_success [str "ts-node"; str "assembler.ts"]
           {| files := ∅; stderr := [] |}).
  reflexivity.
Defined.

(** X24.  The one way [assemble] throws: the validator accepts the document
    and the text without comments splits into fewer than three pieces.  The
    exception is then a TypeError. *)
Theorem assemble_throws_iff (doc : jsstring) (e : js_error) :
  assemble doc = Throw e
  <-> e = TypeError /\ isValid doc = Ret true
      /\ (length (js_split section_re (stripComments doc)) < 3)%nat.
Proof.
  unfold assemble. destruct (isValid_total doc) as [[|] Hv].
  - rewrite (assemble_valid _ _ Hv).
    destruct (lt_dec (length (js_split section_re (stripComments doc))) 3)
      as [Hlt|Hge].
    + rewrite splitSections_short by assumption.
      split; [intros [= <-]; auto | intros (-> & _); reflexivity].
    + destruct (js_split section_re (stripComments doc))
        as [|a [|b [|c more]]] eqn:Es; try (cbn in Hge; lia).
      rewrite (splitSections_three _ _ _ _ _ Es).
      split; [discriminate | intros (_ & _ & H); contradiction].
  - rewrite (assemble_invalid _ _ Hv). split; [discriminate|].
    intros (_ & H & _). congruence.
Qed.
